(** * gif_frames: frame-by-frame decoding and delta re-encoding of animated GIFs

    A shallow embedding of [src/gif_frames.py]: [is_partial_frame],
    [read_frames], [int_to_bin], [header_block], [logical_screen_descriptor],
    [application_ext] and [write_frames].

    The pixel library the module drives (Pillow's [Image], [ImageChops] and the
    GIF source object) is not part of the repository; the operations used by
    the module are modelled after sections 3, 4 and 6 of the specification,
    and the way the source object loads its frames after the library.
    The single-frame codec ([GifImagePlugin.getheader], [getdata]) stays
    abstract: it is a pair of section variables. *)

From Stdlib Require Import ZArith List Lia Bool Arith.
From Stdlib Require Import Strings.Byte Strings.String.
From stdpp Require Import base list.
Import ListNotations.

Local Open Scope nat_scope.

(** ** Pixels and images *)

(** An RGBA pixel; channels range over 0..255. *)
Record Pixel := RGBA { red : Z; green : Z; blue : Z; alpha : Z }.

Definition blank : Pixel := RGBA 0 0 0 0.

Definition pixel_eqb (p q : Pixel) : bool :=
  (red p =? red q)%Z && (green p =? green q)%Z &&
  (blue p =? blue q)%Z && (alpha p =? alpha q)%Z.

(** A pixel is zero when every channel is. *)
Definition is_zero (p : Pixel) : bool := pixel_eqb p blank.

(** Modelled from the spec: the Canvas of section 3, "a fixed-width/height
    grid of RGBA pixels".  [size] is Pillow's [img.size = (width, height)];
    [rows] holds the pixel rows top to bottom. *)
Record Image := mkImage { size : nat * nat; rows : list (list Pixel) }.

Definition width (img : Image) : nat := fst (size img).
Definition height (img : Image) : nat := snd (size img).

(** [img.getpixel((x, y))]; positions outside the raster read as blank. *)
Definition getpixel (img : Image) (x y : nat) : Pixel :=
  nth x (nth y (rows img) []) blank.

(** The image of the given size whose pixel at [(x, y)] is [f x y]. *)
Definition raster (w h : nat) (f : nat -> nat -> Pixel) : Image :=
  mkImage (w, h) (map (fun y => map (fun x => f x y) (seq 0 w)) (seq 0 h)).

(** Modelled from the spec: [Image.new('RGBA', size)], "a new Canvas of
    GlobalScreen dimensions, fully transparent" (section 4.1, step 3b). *)
Definition Image_new (sz : nat * nat) : Image :=
  raster (fst sz) (snd sz) (fun _ _ => blank).

(** [img.copy()]: a fresh image with the same content.  Images are values
    here, so the copy is the image itself; what distinguishes a copy from an
    alias only shows in the object store of the decoder below. *)
Definition copy (img : Image) : Image := img.

(** [img.putpixel((x, y), p)]: in-place update of one pixel. *)
Definition putpixel (img : Image) (x y : nat) (p : Pixel) : Image :=
  raster (width img) (height img)
    (fun x' y' => if (x' =? x) && (y' =? y) then p else getpixel img x' y').

(** A bounding box [(x0, y0, x1, y1)]: left and upper edge inclusive, right
    and lower edge exclusive. *)
Definition Box : Type := nat * nat * nat * nat.

Definition box_origin (b : Box) : nat * nat :=
  let '(x0, y0, _, _) := b in (x0, y0).

Definition box_size (b : Box) : nat * nat :=
  let '(x0, y0, x1, y1) := b in (x1 - x0, y1 - y0).

Definition in_box (b : Box) (x y : nat) : Prop :=
  let '(x0, y0, x1, y1) := b in x0 <= x < x1 /\ y0 <= y < y1.

(** Modelled from the spec: [ImageChops.subtract_modulo(a, b)], "the
    per-channel difference, modulo 256" (section 4.2).  Pillow computes it over
    the region the two images share, the result having the smaller width and
    the smaller height. *)
Definition sub_mod (p q : Pixel) : Pixel :=
  RGBA ((red p - red q) mod 256) ((green p - green q) mod 256)
       ((blue p - blue q) mod 256) ((alpha p - alpha q) mod 256).

Definition subtract_modulo (a b : Image) : Image :=
  raster (Nat.min (width a) (width b)) (Nat.min (height a) (height b))
    (fun x y => sub_mod (getpixel a x y) (getpixel b x y)).

(** Columns and rows of an image that hold a nonzero pixel. *)
Definition nonzero_at (img : Image) (x y : nat) : bool :=
  negb (is_zero (getpixel img x y)).

Definition column_has_data (img : Image) (x : nat) : bool :=
  List.existsb (fun y => nonzero_at img x y) (seq 0 (height img)).

Definition row_has_data (img : Image) (y : nat) : bool :=
  List.existsb (fun x => nonzero_at img x y) (seq 0 (width img)).

(** Modelled from the spec: [img.getbbox()], the DeltaRegion of section 3,
    "the minimal rectangle containing all pixels that differ ... may be empty".
    [None] is Pillow's answer for an image without nonzero pixel. *)
Definition getbbox (img : Image) : option Box :=
  match List.filter (column_has_data img) (seq 0 (width img)),
        List.filter (row_has_data img) (seq 0 (height img)) with
  | x0 :: xs, y0 :: ys =>
      Some (x0, y0, S (List.last xs x0), S (List.last ys y0))
  | _, _ => None
  end.

(** Modelled from the spec: [img.crop(bbox)], "crop the current canvas to
    that rectangle" (section 4.2). *)
Definition crop (img : Image) (b : Box) : Image :=
  let '(x0, y0, x1, y1) := b in
  raster (x1 - x0) (y1 - y0) (fun x y => getpixel img (x0 + x) (y0 + y)).

(** ** Exceptions and the output sink *)

Inductive exn : Type :=
| EOFError              (* the source's end-of-sequence condition *)
| IOError               (* unreadable source *)
| TypeError
| IndexError
| OverflowError
| UnicodeEncodeError
| CodecError (code : nat).  (* raised by the external single-frame codec *)

Inductive result (A : Type) : Type :=
| Ok (a : A)
| Raise (e : exn).
Arguments Ok {A} a.
Arguments Raise {A} e.

Definition bytes : Type := list byte.

(** The output handle: the chunks passed to [handle.write], oldest first. *)
Definition sink : Type := list bytes.

(** The byte stream a sink holds. *)
Definition stream (h : sink) : bytes := List.concat h.

(** Computations that write to the handle and may raise. *)
Definition M (A : Type) : Type := sink -> sink * result A.

Definition ret {A} (a : A) : M A := fun h => (h, Ok a).

Definition bind {A B} (m : M A) (k : A -> M B) : M B :=
  fun h => match m h with
           | (h', Ok a) => k a h'
           | (h', Raise e) => (h', Raise e)
           end.

(** A call that does not touch the handle. *)
Definition call {A} (r : result A) : M A := fun h => (h, r).

(** [handle.write(b)] *)
Definition write (b : bytes) : M unit := fun h => (h ++ [b], Ok tt).

Notation "x <- m ;; k" := (bind m (fun x => k))
  (at level 90, m at level 80, right associativity).
Notation "m ;;; k" := (bind m (fun _ => k))
  (at level 90, right associativity).

(** [for block in blocks: handle.write(block)] *)
Fixpoint write_each (blocks : list bytes) : M unit :=
  match blocks with
  | [] => ret tt
  | b :: rest => write b ;;; write_each rest
  end.

(** [seq[i]] on a Python list. *)
Definition getitem {A} (l : list A) (i : nat) : result A :=
  match nth_error l i with
  | Some a => Ok a
  | None => Raise IndexError
  end.

(** ** The block helpers of gif_frames.py *)

(** ['{:c}'.format(c)] encoded as latin-1: one byte when [c < 256].  A code
    point past 255 has no latin-1 encoding; past 0x10FFFF the format itself
    overflows. *)
Definition chr_latin1 (c : nat) : result byte :=
  match Byte.of_nat c with
  | Some b => Ok b
  | None =>
      if (N.of_nat c <? 1114112)%N then Raise UnicodeEncodeError
      else Raise OverflowError
  end.

(** [i % 256] and [int(i / 256)] as two latin-1 characters.  The float
    quotient is exact for any side an image can have, so [i2] is the integer
    quotient. *)
Definition int_to_bin (i : nat) : result bytes :=
  let i1 := i mod 256 in
  let i2 := i / 256 in
  match chr_latin1 i1, chr_latin1 i2 with
  | Ok b1, Ok b2 => Ok [b1; b2]
  | Raise e, _ => Raise e
  | _, Raise e => Raise e
  end.

Definition header_block : bytes :=
  List.concat [
    [x47; x49; x46];  (* b'GIF', signature *)
    [x38; x39; x61]   (* b'89a', version *)
  ].

Definition logical_screen_descriptor (img : Image) (packed_bit : bytes)
  : result bytes :=
  let '(img_x, img_y) := size img in
  match int_to_bin img_x with
  | Raise e => Raise e
  | Ok canvas_width =>
    match int_to_bin img_y with
    | Raise e => Raise e
    | Ok canvas_height =>
        Ok (List.concat [
          canvas_width;
          canvas_height;
          packed_bit;   (* the packed_bit from the original image *)
          [x00];        (* background color index *)
          [x00]         (* pixel aspect ratio *)
        ])
    end
  end.

Definition application_ext (loops : nat) : result bytes :=
  match int_to_bin loops with
  | Raise e => Raise e
  | Ok repeats =>
      Ok (List.concat [
        [x21];                              (* extension introducer *)
        [xff];                              (* extension label *)
        [x0b];                              (* block size *)
        list_byte_of_string "NETSCAPE";     (* application identifier *)
        list_byte_of_string "2.0";          (* application authentication code *)
        [x03];                              (* block size *)
        [x01];
        repeats;                            (* number of repeats *)
        [x00]                               (* block terminator *)
      ])
  end.

(** The trailer block. *)
Definition trailer : bytes := [x3b].

(** ** write_frames *)

Section Encoder.

(** The external single-frame codec.  [getheader img] returns the header
    pieces and the used palette colours; [getdata img offset] the data
    blocks of one frame.  Either may raise. *)
Variable getheader : Image -> result (list bytes * list nat).
Variable getdata : Image -> nat * nat -> result (list bytes).

(** The branch taken while [prev_frame] is [None]. *)
Definition first_frame (img : Image) : M unit :=
  hu <- call (getheader img) ;;
  let header := fst hu in
  write header_block ;;;
  packed_bit <- call (getitem header 1) ;;
  lsd <- call (logical_screen_descriptor img packed_bit) ;;
  write lsd ;;;
  palette <- call (getitem header 3) ;;
  write palette ;;;
  ext <- call (application_ext 0) ;;
  write ext ;;;
  blocks <- call (getdata img (0, 0)) ;;
  write_each blocks.

(** The branch taken once a previous frame is retained. *)
Definition delta_frame (img prev_frame : Image) : M unit :=
  let delta := subtract_modulo img prev_frame in
  let bbox := getbbox delta in
  match bbox with
  | Some b =>
      data <- call (getdata (crop img b) (box_origin b)) ;;
      write_each data
  | None => ret tt
  end.

(** One iteration of [for img in frames]; the value is the new
    [prev_frame]. *)
Definition loop_body (prev_frame : option Image) (img : Image)
  : M (option Image) :=
  match prev_frame with
  | None => first_frame img
  | Some prev => delta_frame img prev
  end ;;;
  ret (Some (copy img)).

Fixpoint for_frames (prev_frame : option Image) (frames : list Image)
  : M (option Image) :=
  match frames with
  | [] => ret prev_frame
  | img :: rest =>
      prev_frame' <- loop_body prev_frame img ;;
      for_frames prev_frame' rest
  end.

(** [write_frames(handle, frames)]: the handle is the state of [M]. *)
Definition write_frames (frames : list Image) : M unit :=
  for_frames None frames ;;;
  write trailer.  (* trailer block *)

End Encoder.

(** ** The animated source *)

(** A palette as [getpalette] returns it: the flat list [r, g, b, r, g, b, ...]. *)
Definition Palette : Type := list Z.

Definition colour (p : Palette) (i : nat) : Z * Z * Z :=
  (nth (3 * i) p 0%Z, nth (3 * i + 1) p 0%Z, nth (3 * i + 2) p 0%Z).

(** Modelled from the spec: the SourceFrame of section 3, "a sub-rectangle of
    pixel data (possibly smaller than the canvas), an optional local color
    table".  [extents] is the rectangle [(x0, y0, x1, y1)] of the frame's tile
    descriptor ([None]: the frame has no tile descriptor and its data covers
    the canvas); [indices] holds the palette indices of the rectangle, row by
    row; [transparency] is the index rendered transparent, if any. *)
Record SourceFrame := mkFrame {
  extents : option Box;
  local_palette : option Palette;
  transparency : option nat;
  indices : list (list nat)
}.

(** Modelled from the spec: the input container of section 6 with the
    GlobalScreen of section 3: one canvas size and one global palette for
    all frames. *)
Record GifFile := mkGif {
  screen : nat * nat;
  global_palette : Palette;
  frames : list SourceFrame
}.

(** Modelled from the spec: the source abstraction of section 6, "global
    palette retrieval, current-frame sub-rectangle geometry, current-frame
    pixel data, and a seek to frame N+1 / signal end operation".  The object
    holds the seek cursor, the palette installed for the current frame and
    [orig.tile], the tile descriptors of the current frame that are still to
    be decoded, each reduced to its extents (its item 1). *)
Record Source := mkSource {
  file : GifFile;
  tell : nat;                       (* orig.tell() *)
  getpalette : option Palette;      (* what orig.getpalette() returns *)
  tile : list Box                   (* orig.tile *)
}.

(** The palette a frame comes with: its own, the global one for the first
    frame, none for a later frame that stores no palette. *)
Definition frame_palette (gif : GifFile) (n : nat) : option Palette :=
  match nth_error (frames gif) n with
  | Some f =>
      match local_palette f with
      | Some p => Some p
      | None => if n =? 0 then Some (global_palette gif) else None
      end
  | None => None
  end.

Definition no_frame : SourceFrame := mkFrame None None None [].

(** The tile descriptors a frame is read with. *)
Definition frame_tile (gif : GifFile) (n : nat) : list Box :=
  match extents (nth n (frames gif) no_frame) with
  | Some b => [b]
  | None => []
  end.

(** [Image.open]: the source positioned at its first frame, not yet
    decoded. *)
Definition Image_open (gif : GifFile) : Source :=
  mkSource gif 0 (frame_palette gif 0) (frame_tile gif 0).

(** [orig.size] *)
Definition source_size (orig : Source) : nat * nat := screen (file orig).

(** Modelled from the library, which is not part of the repository:
    [orig.load()], which [orig.getpalette()] and [orig.convert] call first.
    It decodes the tiles of the current frame into the image the object
    holds and leaves [orig.tile] empty. *)
Definition load (orig : Source) : Source :=
  mkSource (file orig) (tell orig) (getpalette orig) [].

(** [orig.seek(n)]: raises [EOFError] past the last frame; otherwise the
    object is at frame [n], whose tiles are still to be decoded. *)
Definition seek (orig : Source) (n : nat) : result Source :=
  match nth_error (frames (file orig)) n with
  | Some _ =>
      Ok (mkSource (file orig) n (frame_palette (file orig) n)
            (frame_tile (file orig) n))
  | None => Raise EOFError
  end.

(** [orig.putpalette(data)] *)
Definition putpalette (orig : Source) (data : option Palette) : result Source :=
  match data with
  | Some p => Ok (mkSource (file orig) (tell orig) (Some p) (tile orig))
  | None => Raise TypeError
  end.

(** Python truth value of [orig.getpalette()]: [None] and the empty list are
    false. *)
Definition truthy (p : option Palette) : bool :=
  match p with
  | Some (_ :: _) => true
  | _ => false
  end.

(** The palette index the current frame holds at canvas position [(x, y)]. *)
Definition index_at (f : SourceFrame) (x y : nat) : option nat :=
  match extents f with
  | Some (x0, y0, x1, y1) =>
      if (x0 <=? x) && (x <? x1) && (y0 <=? y) && (y <? y1)
      then nth_error (nth (y - y0) (indices f) []) (x - x0)
      else None
  | None => nth_error (nth y (indices f) []) x
  end.

Definition opacity (f : SourceFrame) (i : nat) : Z :=
  match transparency f with
  | Some t => if t =? i then 0%Z else 255%Z
  | None => 255%Z
  end.

(** What frame [f] draws at canvas position [(x, y)]: its palette index
    there, unless that is the index it renders transparent. *)
Definition drawn_index (f : SourceFrame) (x y : nat) : option nat :=
  match index_at f x y with
  | Some i => if (opacity f i =? 0)%Z then None else Some i
  | None => None
  end.

(** Modelled from the library, which is not part of the repository: the
    image the object holds once the frames [loaded] have been decoded into
    it, one after the other.  At each position it holds the index drawn by
    the last of these frames that draws there. *)
Definition held_index (loaded : list SourceFrame) (x y : nat) : option nat :=
  fold_left (fun held f => match drawn_index f x y with
                           | Some i => Some i
                           | None => held
                           end)
            loaded None.

Definition held_pixel (pal : Palette) (loaded : list SourceFrame) (x y : nat)
  : Pixel :=
  match held_index loaded x y with
  | Some i => let '(r, g, b) := colour pal i in RGBA r g b 255
  | None => blank
  end.

(** Modelled from the library, which is not part of the repository:
    [orig.convert('RGBA')], the current frame as a canvas-sized RGBA image.
    The library has decoded the frame over the frames before it, so the
    image shows the current frame where it draws and the earlier frames
    elsewhere, in the palette installed, and is transparent where no frame
    has drawn. *)
Definition convert_RGBA (orig : Source) : Image :=
  let pal := match getpalette orig with Some p => p | None => [] end in
  raster (fst (source_size orig)) (snd (source_size orig))
    (held_pixel pal (firstn (S (tell orig)) (frames (file orig)))).

(** [dst.paste(src)]: [src] laid over [dst] from the upper left corner. *)
Definition paste (dst src : Image) : Image :=
  raster (width dst) (height dst)
    (fun x y => if (x <? width src) && (y <? height src)
                then getpixel src x y else getpixel dst x y).

(** Modelled from the spec: "standard alpha-over compositing" (section 4.1,
    step 3d), in Pillow's integer arithmetic: fully transparent keeps the
    destination, fully opaque takes the source. *)
Definition blend (a d s : Z) : Z :=
  if (a =? 0)%Z then d
  else if (a =? 255)%Z then s
  else let t := (d * (255 - a) + s * a + 128)%Z in
       Z.shiftr (Z.shiftr t 8 + t) 8.

Definition blend_pixel (a : Z) (d s : Pixel) : Pixel :=
  RGBA (blend a (red d) (red s)) (blend a (green d) (green s))
       (blend a (blue d) (blue s)) (blend a (alpha d) (alpha s)).

(** [dst.paste(src, (0, 0), mask)]: [src] blended over [dst] by the alpha
    band of [mask]. *)
Definition paste_mask (dst src mask : Image) : Image :=
  raster (width dst) (height dst)
    (fun x y => if (x <? width src) && (y <? height src)
                then blend_pixel (alpha (getpixel mask x y))
                       (getpixel dst x y) (getpixel src x y)
                else getpixel dst x y).

(** ** is_partial_frame *)

Definition pair_eqb (p q : nat * nat) : bool :=
  (fst p =? fst q) && (snd p =? snd q).

(** [extents[2:]]: the lower right corner. *)
Definition box_corner (b : Box) : nat * nat :=
  let '(_, _, x1, y1) := b in (x1, y1).

Definition is_partial_frame (img : Source) : bool :=
  match tile img with
  | [] => false
  | t :: _ => negb (pair_eqb (box_corner t) (source_size img))
  end.

(** ** read_frames *)

(** Images are Python objects: the generator and its consumer share them by
    reference.  The store holds every image object; a reference is an index. *)
Abbreviation ref := nat.
Abbreviation store := (list Image).

Definition alloc (σ : store) (img : Image) : store * ref :=
  (σ ++ [img], length σ).

(** The object behind a reference. *)
Definition deref (σ : store) (r : ref) : Image :=
  match σ !! r with
  | Some img => img
  | None => Image_new (0, 0)
  end.

(** In-place update of the object behind [r]. *)
Definition update (σ : store) (r : ref) (f : Image -> Image) : store :=
  match σ !! r with
  | Some img => <[r := f img]> σ
  | None => σ
  end.

(** The generator object: not started, suspended at [yield current_frame]
    with its local variables, or finished. *)
Inductive Generator : Type :=
| Created (orig : Source)
| Suspended (orig : Source) (palette : option Palette)
            (prev_frame current_frame : ref)
| Closed.

(** What [next(generator)] gives the caller. *)
Inductive Signal : Type :=
| Yield (canvas : ref)
| StopIteration
| Fault (e : exn).

(** The body of [while True] up to the [yield].  [orig.getpalette()]
    loads the frame before it answers.  [paste] converts the pasted source
    to the mode of the canvas, so both the image pasted and the mask are
    [orig.convert('RGBA')]. *)
Definition loop_iteration (orig : Source) (palette : option Palette)
    (prev_frame : ref) (σ : store) : store * Generator * Signal :=
  let orig := load orig in
  match (if truthy (getpalette orig) then Ok orig
         else putpalette orig palette) with
  | Raise e => (σ, Closed, Fault e)
  | Ok orig =>
      let '(σ, current_frame) := alloc σ (Image_new (source_size orig)) in
      let σ :=
        if is_partial_frame orig
        then update σ current_frame (fun img => paste img (deref σ prev_frame))
        else σ in
      let σ :=
        update σ current_frame
          (fun img => paste_mask img (convert_RGBA orig) (convert_RGBA orig)) in
      (σ, Suspended orig palette prev_frame current_frame, Yield current_frame)
  end.

(** [read_frames(orig)]: calling the generator function runs nothing yet. *)
Definition read_frames (orig : Source) : Generator := Created orig.

(** [next(generator)]: run to the next [yield], or to the end. *)
Definition next (g : Generator) (σ : store) : store * Generator * Signal :=
  match g with
  | Created orig =>
      let orig := load orig in
      let palette := getpalette orig in
      let '(σ, prev_frame) := alloc σ (convert_RGBA orig) in
      loop_iteration orig palette prev_frame σ
  | Suspended orig palette _ current_frame =>
      let prev_frame := current_frame in
      match seek orig (tell orig + 1) with
      | Ok orig => loop_iteration orig palette prev_frame σ
      | Raise EOFError => (σ, Closed, StopIteration)
      | Raise e => (σ, Closed, Fault e)
      end
  | Closed => (σ, Closed, StopIteration)
  end.

(** What a consumer does to the images it can reach between two [next]
    calls: a script of [putpixel] calls. *)
Definition Script : Type := list (ref * (nat * nat) * Pixel).

Definition run_script (s : Script) (σ : store) : store :=
  fold_left (fun σ '(r, (x, y), p) => update σ r (fun img => putpixel img x y p))
            s σ.

(** A consumer: the script it runs after receiving canvas number [k]. *)
Definition Consumer : Type := nat -> ref -> Script.

Definition idle : Consumer := fun _ _ => [].

Inductive Ending : Type :=
| Finished
| Failed (e : exn)
| Pending.   (* the consumer stopped asking *)

(** [for canvas in generator: ...] for at most [n] requests: the canvases as
    they were when yielded, and how the iteration ended. *)
Fixpoint iterate (n : nat) (consumer : Consumer) (k : nat)
    (g : Generator) (σ : store) : list Image * Ending :=
  match n with
  | 0 => ([], Pending)
  | S n =>
      match next g σ with
      | (σ, g, Yield r) =>
          let canvas := deref σ r in
          let '(rest, ending) :=
            iterate n consumer (S k) g (run_script (consumer k r) σ) in
          (canvas :: rest, ending)
      | (_, _, StopIteration) => ([], Finished)
      | (_, _, Fault e) => ([], Failed e)
      end
  end.

(** ** Sample inputs *)

Definition red_pixel : Pixel := RGBA 255 0 0 255.
Definition green_pixel : Pixel := RGBA 0 255 0 255.

(** A canvas of one colour. *)
Definition solid (w h : nat) (p : Pixel) : Image := raster w h (fun _ _ => p).

Definition byte_of (n : nat) : byte :=
  match Byte.of_nat n with
  | Some b => b
  | None => xff
  end.

(** A codec that records instead of compressing.  Its header pieces are a
    signature, the flags byte 0x80, background and aspect bytes, and a table
    of one colour; the blocks of a frame are an image descriptor (separator,
    offset, size) and a terminator. *)
Definition sample_getheader (img : Image) : result (list bytes * list nat) :=
  Ok ([list_byte_of_string "GIF87a"; [x80]; [x00; x00]; [xff; x00; x00]], [0]).

Definition sample_blocks (img : Image) (offset : nat * nat) : list bytes :=
  [[x2c; byte_of (fst offset); byte_of (snd offset);
    byte_of (width img); byte_of (height img)]; [x00]].

Definition sample_getdata (img : Image) (offset : nat * nat)
  : result (list bytes) :=
  Ok (sample_blocks img offset).

(** A codec that refuses every image that is not two pixels wide. *)
Definition narrow_getdata (img : Image) (offset : nat * nat)
  : result (list bytes) :=
  if width img =? 2 then Ok (sample_blocks img offset)
  else Raise (CodecError 1).

(** Two 2x2 canvases that differ in the lower right pixel only. *)
Definition canvas_red : Image := solid 2 2 red_pixel.
Definition canvas_dot : Image := putpixel canvas_red 1 1 green_pixel.

(** [img] with the rectangle [b] painted in one colour. *)
Definition fill (img : Image) (b : Box) (p : Pixel) : Image :=
  let '(x0, y0, x1, y1) := b in
  raster (width img) (height img)
    (fun x y => if (x0 <=? x) && (x <? x1) && (y0 <=? y) && (y <? y1)
                then p else getpixel img x y).

(** A 3x3 canvas, red but for a green left column, and the same canvas with
    its upper left 2x2 rectangle painted green: only the two pixels of the
    rectangle that were red change. *)
Definition canvas_striped : Image :=
  raster 3 3 (fun x _ => if x =? 0 then green_pixel else red_pixel).
Definition canvas_patched : Image := fill canvas_striped (0, 0, 2, 2) green_pixel.

(** Canvases of other sizes. *)
Definition canvas_wide : Image := solid 2 1 red_pixel.
Definition canvas_small : Image := solid 1 1 green_pixel.

(** What the sample codec's stream starts with for a 2x2 canvas. *)
Definition sample_preamble : sink :=
  [ list_byte_of_string "GIF89a";
    [x02; x00; x02; x00; x80; x00; x00];
    [xff; x00; x00];
    [x21; xff; x0b] ++ list_byte_of_string "NETSCAPE2.0"
      ++ [x03; x01; x00; x00; x00] ].

(** A three-colour palette: red, green, blue. *)
Definition rgb_palette : Palette := [255; 0; 0; 0; 255; 0; 0; 0; 255]%Z.

(** A 2x1 animation whose second frame repaints the left pixel only. *)
Definition gif_left : GifFile :=
  mkGif (2, 1) rgb_palette
    [ mkFrame (Some (0, 0, 2, 1)) None None [[0; 0]];
      mkFrame (Some (0, 0, 1, 1)) None None [[1]] ].



(** ** Vocabulary of the statements *)

(** [b] is the least rectangle of the image that holds every nonzero pixel:
    no nonzero pixel lies outside, and each of its four border lines holds
    one. *)
Definition tight_box (img : Image) (b : Box) : Prop :=
  let '(x0, y0, x1, y1) := b in
  (x0 < x1 <= width img /\ y0 < y1 <= height img) /\
  (forall x y, x < width img -> y < height img ->
               nonzero_at img x y = true -> in_box b x y) /\
  (exists y, y < height img /\ nonzero_at img x0 y = true) /\
  (exists y, y < height img /\ nonzero_at img (x1 - 1) y = true) /\
  (exists x, x < width img /\ nonzero_at img x y0 = true) /\
  (exists x, x < width img /\ nonzero_at img x (y1 - 1) = true).

(** The rectangle [b] lies within the rectangle [r]. *)
Definition box_within (b r : Box) : Prop :=
  let '(x0, y0, x1, y1) := b in
  let '(u0, v0, u1, v1) := r in
  u0 <= x0 /\ x1 <= u1 /\ v0 <= y0 /\ y1 <= v1.

(** Two canvases are pixel-identical: same size, same pixel everywhere. *)
Definition same_pixels (a b : Image) : Prop :=
  size a = size b /\
  forall x y, x < width a -> y < height a -> getpixel a x y = getpixel b x y.

(** Every channel of the pixel is in 0..255. *)
Definition in_range (p : Pixel) : Prop :=
  (0 <= red p < 256 /\ 0 <= green p < 256 /\
   0 <= blue p < 256 /\ 0 <= alpha p < 256)%Z.

(** A computation that only appends to the handle. *)
Definition appends {A} (m : M A) : Prop :=
  forall h, exists added, fst (m h) = h ++ added.

(** The looping extension: 19 bytes. *)
Definition netscape_ext : bytes :=
  [x21; xff; x0b] ++ list_byte_of_string "NETSCAPE2.0" ++ [x03; x01; x00; x00; x00].

(** The frames after the first, one by one against their predecessor, when
    the codec accepts every crop: [data] is what it answers. *)
Fixpoint delta_blocks (data : Image -> nat * nat -> list bytes)
    (prev : Image) (frames : list Image) : list bytes :=
  match frames with
  | [] => []
  | img :: rest =>
      match getbbox (subtract_modulo img prev) with
      | Some b => data (crop img b) (box_origin b)
      | None => []
      end ++ delta_blocks data img rest
  end.

(** The source at frame [k] once [read_frames] has made sure a palette is
    installed: the frame's own, else the palette [p] of the first frame.
    Asking for the palette has loaded the frame. *)
Definition positioned (gif : GifFile) (p : Palette) (k : nat) : Source :=
  let orig := mkSource gif k (frame_palette gif k) [] in
  if truthy (getpalette orig) then orig else mkSource gif k (Some p) [].

(** The canvas [read_frames] builds for the current frame of [orig] on top
    of the image [prev]. *)
Definition render (orig : Source) (prev : Image) : Image :=
  paste_mask
    (if is_partial_frame orig
     then paste (Image_new (source_size orig)) prev
     else Image_new (source_size orig))
    (convert_RGBA orig) (convert_RGBA orig).

(** The canvases of frames [k], [k + 1], ..., [count] of them, each built on
    its predecessor. *)
Fixpoint canvases_from (gif : GifFile) (p : Palette) (prev : Image)
    (k count : nat) : list Image :=
  match count with
  | 0 => []
  | S count =>
      let canvas := render (positioned gif p k) prev in
      canvas :: canvases_from gif p canvas (S k) count
  end.

(** The decoded animation, frame by frame. *)
Definition decoded (gif : GifFile) : list Image :=
  match frame_palette gif 0 with
  | Some p =>
      canvases_from gif p (convert_RGBA (Image_open gif)) 0
        (length (frames gif))
  | None => []
  end.

(** * filters: the grey-level buckets of the ASCII filter

    From [src/filters.py]: [split], the constants [CHARS] and [RANGES], and
    the loop of [ascii] that turns grey levels into text (lines 27 to 34).
    The rest of [ascii] resizes, converts and draws through the image
    library, and computes the text height in floating point. *)

(** What a call that divides returns: a value, or [ZeroDivisionError]. *)
Inductive quotient (A : Type) : Type :=
| Returned (a : A)
| ZeroDivisionError.
Arguments Returned {A} a.
Arguments ZeroDivisionError {A}.

(** [math.ceil(a / n)] for [n > 0].  Python divides in binary64 and takes
    the ceiling of the float; for [a] and [n] below 2^53 the float quotient
    lies on the same side of every integer as the exact one, and the ceiling
    is the integer one computed here.  Above that the two can differ. *)
Definition ceil_div (a n : nat) : nat :=
  a / n + (if a mod n =? 0 then 0 else 1).

(** [l[i:j]] for [0 <= i], [0 <= j]: the slice is clipped to the list. *)
Definition slice {A} (l : list A) (i j : nat) : list A :=
  firstn (j - i) (skipn i l).

(** [list(split(l, n))]: the chunks the generator yields, in order. *)
Definition split {A} (l : list A) (n : nat) : quotient (list (list A)) :=
  if n =? 0 then ZeroDivisionError
  else
    let step := ceil_div (length l) n in
    Returned (map (fun i => slice l (i * step) ((i + 1) * step)) (seq 0 n)).

(** [list('@#*+=:-. ')] *)
Definition CHARS : list Ascii.ascii :=
  list_ascii_of_string "@#*+=:-. ".

(** [list(split(range(0, 256), len(CHARS)))], a range as the list of its
    elements. *)
Definition RANGES : list (list nat) :=
  match split (seq 0 256) (length CHARS) with
  | Returned ranges => ranges
  | ZeroDivisionError => []
  end.

(** [enumerate(l)] *)
Definition enumerate {A} (l : list A) : list (nat * A) :=
  combine (seq 0 (length l)) l.

(** [color in color_range] *)
Definition contains (color_range : list nat) (color : nat) : bool :=
  List.existsb (Nat.eqb color) color_range.

(** The characters the innermost loop of [ascii] appends for one grey
    level: [CHARS[ix]] for every range that holds it.  [RANGES] has one
    entry per character, so the index is always in range. *)
Definition glyphs (color : nat) : list Ascii.ascii :=
  flat_map (fun '(ix, color_range) =>
              if contains color_range color
              then match nth_error CHARS ix with
                   | Some c => [c]
                   | None => []
                   end
              else [])
           (enumerate RANGES).

(** The line feed character. *)
Definition newline : Ascii.ascii := Ascii.ascii_of_nat 10.

(** The text [ascii] builds from the resized grey image ([getpixel] reads
    it), for a resized width [new_x] and height [new_y]. *)
Definition ascii_text (getpixel : nat -> nat -> nat) (new_x new_y : nat)
  : list Ascii.ascii :=
  flat_map (fun img_y =>
              flat_map (fun img_x => glyphs (getpixel img_x img_y))
                       (seq 0 (new_x - 1))
              ++ [newline])
           (seq 0 (new_y - 1)).

(** ** More sample inputs *)

(** A codec whose header encoder refuses every image. *)
Definition refusing_getheader (img : Image) : result (list bytes * list nat) :=
  Raise (CodecError 2).

(** A codec whose header has only two pieces. *)
Definition short_getheader (img : Image) : result (list bytes * list nat) :=
  Ok ([list_byte_of_string "GIF87a"; [x80]], []).

(** An image object of width 65536: only its size matters. *)
Definition canvas_huge : Image := mkImage (256 * 256, 1) [].

(** A 2x1 animation of three frames: the second brings its own palette
    (one colour, blue), the third repaints the left pixel and brings none. *)
Definition gif_three : GifFile :=
  mkGif (2, 1) rgb_palette
    [ mkFrame (Some (0, 0, 2, 1)) None None [[0; 0]];
      mkFrame (Some (0, 0, 2, 1)) (Some [0; 0; 255]%Z) None [[0; 0]];
      mkFrame (Some (0, 0, 1, 1)) None None [[1]] ].

(** A grey image as a function of the position, for the examples. *)
Definition gradient (x y : nat) : nat := (30 * x + 100 * y) mod 256.

(** The same image with its last column and last row (of a 4x3 resize)
    replaced by black. *)
Definition gradient_cut (x y : nat) : nat :=
  if (x <? 3) && (y <? 2) then gradient x y else 0.

(** ** More vocabulary *)

(** The number two bytes hold, least significant byte first. *)
Definition le16 (bs : bytes) : nat :=
  match bs with
  | [lo; hi] => Byte.to_nat lo + 256 * Byte.to_nat hi
  | _ => 0
  end.

(** The first 16 bytes of the looping extension, up to the loop count. *)
Definition netscape_prefix : bytes :=
  [x21; xff; x0b] ++ list_byte_of_string "NETSCAPE2.0" ++ [x03; x01].

(** [write_frames] resumed after some canvases: the rest of the loop with
    the canvas retained so far, then the trailer. *)
Definition write_frames_after
    (getheader : Image -> result (list bytes * list nat))
    (getdata : Image -> nat * nat -> result (list bytes))
    (prev_frame : option Image) (rest : list Image) : M unit :=
  for_frames getheader getdata prev_frame rest ;;;
  write trailer.

(** The palette frame [k] is decoded with, [p] being the palette of the
    first frame: the frame's own when it brings a non-empty one. *)
Definition palette_in_use (gif : GifFile) (p : Palette) (k : nat) : Palette :=
  match frame_palette gif k with
  | Some (c :: q) => c :: q
  | _ => p
  end.

(** * Properties *)

(** ** Rasters *)

Lemma size_raster w h f : size (raster w h f) = (w, h).
Proof. reflexivity. Qed.

Lemma getpixel_raster w h f x y :
  x < w -> y < h -> getpixel (raster w h f) x y = f x y.
Proof.
  intros Hx Hy. unfold getpixel, raster. cbn [rows].
  rewrite (nth_indep _ [] (map (fun x0 => f x0 0) (seq 0 w))).
  2: { rewrite length_map, length_seq. exact Hy. }
  rewrite (map_nth (fun y0 => map (fun x0 => f x0 y0) (seq 0 w)) (seq 0 h) 0 y).
  rewrite seq_nth by exact Hy. cbn [Nat.add].
  rewrite (nth_indep _ blank (f 0 y)).
  2: { rewrite length_map, length_seq. exact Hx. }
  rewrite (map_nth (fun x0 => f x0 y) (seq 0 w) 0 x).
  rewrite seq_nth by exact Hx. reflexivity.
Qed.

Lemma size_crop img b : size (crop img b) = box_size b.
Proof. destruct b as [[[x0 y0] x1] y1]. reflexivity. Qed.

(** ** Scanning a range for the first and the last hit *)

Section Scan.
Variable P : nat -> bool.

Lemma filter_seq_first n : forall s lo,
  s <= lo < s + n -> P lo = true ->
  (forall i, s <= i < lo -> P i = false) ->
  exists rest, List.filter P (seq s n) = lo :: rest.
Proof.
  induction n as [|n IH]; intros s lo Hlo Hhit Hbefore; [lia|].
  cbn [seq List.filter].
  destruct (Nat.eq_dec s lo) as [->|Hne].
  - rewrite Hhit. eauto.
  - rewrite (Hbefore s) by lia.
    apply IH; [lia|exact Hhit|]. intros i Hi. apply Hbefore. lia.
Qed.

Lemma filter_seq_last n : forall s hi d,
  s <= hi < s + n -> P hi = true ->
  (forall i, hi < i < s + n -> P i = false) ->
  List.last (List.filter P (seq s n)) d = hi.
Proof.
  induction n as [|n IH]; intros s hi d Hhi Hhit Hafter; [lia|].
  rewrite seq_S, List.filter_app. cbn [List.filter].
  destruct (Nat.eq_dec (s + n) hi) as [->|Hne].
  - rewrite Hhit. apply last_last.
  - rewrite (Hafter (s + n)) by lia. rewrite app_nil_r.
    apply IH; [lia|exact Hhit|]. intros i Hi. apply Hafter. lia.
Qed.

Lemma filter_seq_none n s :
  (forall i, s <= i < s + n -> P i = false) -> List.filter P (seq s n) = [].
Proof.
  intros Hnone.
  destruct (List.filter P (seq s n)) as [|a l] eqn:E; [reflexivity|].
  assert (Ha : List.In a (List.filter P (seq s n))) by (rewrite E; left; reflexivity).
  apply filter_In in Ha. destruct Ha as [Hin Hp].
  apply in_seq in Hin. rewrite Hnone in Hp by lia. discriminate.
Qed.

Lemma filter_seq_head_inv n : forall s a rest,
  List.filter P (seq s n) = a :: rest ->
  s <= a < s + n /\ P a = true /\ (forall i, s <= i < a -> P i = false).
Proof.
  induction n as [|n IH]; intros s a rest E; [discriminate|].
  cbn [seq List.filter] in E. destruct (P s) eqn:Es.
  - injection E as <- _. repeat split; [lia|lia|exact Es|]. intros i Hi. lia.
  - apply IH in E. destruct E as [Ha [Hp Hbefore]].
    repeat split; [lia|lia|exact Hp|].
    intros i Hi. destruct (Nat.eq_dec i s) as [->|Hne]; [exact Es|].
    apply Hbefore. lia.
Qed.

Lemma filter_seq_last_inv n : forall s d,
  List.filter P (seq s n) <> [] ->
  let hi := List.last (List.filter P (seq s n)) d in
  s <= hi < s + n /\ P hi = true /\ (forall i, hi < i < s + n -> P i = false).
Proof.
  induction n as [|n IH]; intros s d Hne; [destruct Hne; reflexivity|].
  revert Hne. rewrite seq_S, List.filter_app. cbn [List.filter].
  destruct (P (s + n)) eqn:Es.
  - intros _. rewrite last_last. repeat split; [lia|lia|exact Es|].
    intros i Hi. lia.
  - rewrite app_nil_r. intros Hne.
    destruct (IH s d Hne) as [Hhi [Hp Hafter]].
    repeat split; [lia|lia|exact Hp|].
    intros i Hi. destruct (Nat.eq_dec i (s + n)) as [->|Hn]; [exact Es|].
    apply Hafter. lia.
Qed.

End Scan.

Lemma last_cons_indep {A} (b a d : A) l :
  List.last (b :: l) a = List.last (b :: l) d.
Proof.
  revert b. induction l as [|c l IH]; intros b; [reflexivity|].
  change (List.last (c :: l) a = List.last (c :: l) d). apply IH.
Qed.

Lemma last_cons_default {A} (a d : A) l : List.last l a = List.last (a :: l) d.
Proof.
  destruct l as [|b l]; [reflexivity|].
  change (List.last (b :: l) a = List.last (b :: l) d). apply last_cons_indep.
Qed.

(** ** Bounding boxes *)

Lemma column_has_data_true img x :
  column_has_data img x = true <->
  exists y, y < height img /\ nonzero_at img x y = true.
Proof.
  unfold column_has_data. rewrite existsb_exists. split.
  - intros [y [Hin Hnz]]. apply in_seq in Hin. exists y. split; [lia|exact Hnz].
  - intros [y [Hy Hnz]]. exists y. split; [apply in_seq; lia|exact Hnz].
Qed.

Lemma row_has_data_true img y :
  row_has_data img y = true <->
  exists x, x < width img /\ nonzero_at img x y = true.
Proof.
  unfold row_has_data. rewrite existsb_exists. split.
  - intros [x [Hin Hnz]]. apply in_seq in Hin. exists x. split; [lia|exact Hnz].
  - intros [x [Hx Hnz]]. exists x. split; [apply in_seq; lia|exact Hnz].
Qed.

(** An image without nonzero pixel has no bounding box. *)
Lemma getbbox_empty img :
  (forall x y, x < width img -> y < height img -> nonzero_at img x y = false) ->
  getbbox img = None.
Proof.
  intros Hzero. unfold getbbox.
  rewrite (filter_seq_none (column_has_data img)); [reflexivity|].
  intros x Hx. destruct (column_has_data img x) eqn:E; [|reflexivity].
  apply column_has_data_true in E. destruct E as [y [Hy Hnz]].
  rewrite Hzero in Hnz by lia. discriminate.
Qed.


Lemma getbbox_tight img b : tight_box img b -> getbbox img = Some b.
Proof.
  destruct b as [[[x0 y0] x1] y1].
  intros [[Hx Hy] [Hin [Hl [Hr [Ht Hb]]]]].
  assert (Hcol : forall x, x < width img -> column_has_data img x = true ->
                           x0 <= x < x1).
  { intros x Hxw E. apply column_has_data_true in E.
    destruct E as [y [Hyh Hnz]]. destruct (Hin x y Hxw Hyh Hnz) as [? _]. lia. }
  assert (Hrow : forall y, y < height img -> row_has_data img y = true ->
                           y0 <= y < y1).
  { intros y Hyh E. apply row_has_data_true in E.
    destruct E as [x [Hxw Hnz]]. destruct (Hin x y Hxw Hyh Hnz) as [_ ?]. lia. }
  assert (Hoff : forall (f : nat -> bool) n lo hi i,
             (forall j, j < n -> f j = true -> lo <= j < hi) ->
             i < n -> ~ lo <= i < hi -> f i = false).
  { intros f n lo hi i Hf Hi Hout. destruct (f i) eqn:E; [|reflexivity].
    destruct (Hf i Hi E). lia. }
  unfold getbbox.
  destruct (filter_seq_first (column_has_data img) (width img) 0 x0) as [xs Exs].
  { lia. }
  { apply column_has_data_true. exact Hl. }
  { intros i Hi. apply (Hoff _ (width img) x0 x1); [exact Hcol|lia|lia]. }
  destruct (filter_seq_first (row_has_data img) (height img) 0 y0) as [ys Eys].
  { lia. }
  { apply row_has_data_true. exact Ht. }
  { intros i Hi. apply (Hoff _ (height img) y0 y1); [exact Hrow|lia|lia]. }
  rewrite Exs, Eys.
  rewrite (last_cons_default x0 0 xs), <- Exs.
  rewrite (last_cons_default y0 0 ys), <- Eys.
  rewrite (filter_seq_last (column_has_data img) (width img) 0 (x1 - 1)).
  2: { lia. }
  2: { apply column_has_data_true. exact Hr. }
  2: { intros i Hi. apply (Hoff _ (width img) x0 x1); [exact Hcol|lia|lia]. }
  rewrite (filter_seq_last (row_has_data img) (height img) 0 (y1 - 1)).
  2: { lia. }
  2: { apply row_has_data_true. exact Hb. }
  2: { intros i Hi. apply (Hoff _ (height img) y0 y1); [exact Hrow|lia|lia]. }
  repeat f_equal; lia.
Qed.

(** Conversely, the box [getbbox] answers is tight. *)
Lemma getbbox_sound img b : getbbox img = Some b -> tight_box img b.
Proof.
  unfold getbbox.
  destruct (List.filter (column_has_data img) (seq 0 (width img)))
    as [|x0 xs] eqn:Exs; [discriminate|].
  destruct (List.filter (row_has_data img) (seq 0 (height img)))
    as [|y0 ys] eqn:Eys; [discriminate|].
  intros E. injection E as <-.
  destruct (filter_seq_head_inv _ _ _ _ _ Exs) as [Hx0 [Px0 Bx0]].
  destruct (filter_seq_head_inv _ _ _ _ _ Eys) as [Hy0 [Py0 By0]].
  assert (Nx : List.filter (column_has_data img) (seq 0 (width img)) <> [])
    by (rewrite Exs; discriminate).
  assert (Ny : List.filter (row_has_data img) (seq 0 (height img)) <> [])
    by (rewrite Eys; discriminate).
  pose proof (filter_seq_last_inv _ _ 0 0 Nx) as Lx.
  pose proof (filter_seq_last_inv _ _ 0 0 Ny) as Ly.
  rewrite Exs, <- (last_cons_default x0 0 xs) in Lx.
  rewrite Eys, <- (last_cons_default y0 0 ys) in Ly.
  cbv zeta in Lx, Ly.
  destruct Lx as [Hx1 [Px1 Ax1]]. destruct Ly as [Hy1 [Py1 Ay1]].
  set (xl := List.last xs x0) in *. set (yl := List.last ys y0) in *.
  assert (Hxx : x0 <= xl).
  { destruct (le_lt_dec x0 xl) as [|Hlt]; [assumption|].
    rewrite (Bx0 xl) in Px1 by lia. discriminate. }
  assert (Hyy : y0 <= yl).
  { destruct (le_lt_dec y0 yl) as [|Hlt]; [assumption|].
    rewrite (By0 yl) in Py1 by lia. discriminate. }
  unfold tight_box. repeat split; try lia.
  - assert (Hc : column_has_data img x = true)
      by (apply column_has_data_true; eauto).
    destruct (le_lt_dec x0 x) as [|Hlt]; [assumption|].
    rewrite (Bx0 x) in Hc by lia. discriminate.
  - assert (Hc : column_has_data img x = true)
      by (apply column_has_data_true; eauto).
    destruct (le_lt_dec x xl) as [|Hlt]; [lia|].
    rewrite (Ax1 x) in Hc by lia. discriminate.
  - assert (Hr : row_has_data img y = true)
      by (apply row_has_data_true; eauto).
    destruct (le_lt_dec y0 y) as [|Hlt]; [assumption|].
    rewrite (By0 y) in Hr by lia. discriminate.
  - assert (Hr : row_has_data img y = true)
      by (apply row_has_data_true; eauto).
    destruct (le_lt_dec y yl) as [|Hlt]; [lia|].
    rewrite (Ay1 y) in Hr by lia. discriminate.
  - apply column_has_data_true. exact Px0.
  - apply column_has_data_true. replace (S xl - 1) with xl by lia. exact Px1.
  - apply row_has_data_true. exact Py0.
  - apply row_has_data_true. replace (S yl - 1) with yl by lia. exact Py1.
Qed.

(** An image without bounding box has no nonzero pixel. *)
Lemma getbbox_none_inv img x y :
  getbbox img = None -> x < width img -> y < height img ->
  nonzero_at img x y = false.
Proof.
  intros Hnone Hx Hy. destruct (nonzero_at img x y) eqn:Hnz; [|reflexivity].
  exfalso. unfold getbbox in Hnone.
  assert (Hc : List.In x (List.filter (column_has_data img) (seq 0 (width img)))).
  { apply filter_In. split; [apply in_seq; lia|].
    apply column_has_data_true. eauto. }
  assert (Hr : List.In y (List.filter (row_has_data img) (seq 0 (height img)))).
  { apply filter_In. split; [apply in_seq; lia|].
    apply row_has_data_true. eauto. }
  destruct (List.filter (column_has_data img) (seq 0 (width img)));
    [destruct Hc|].
  destruct (List.filter (row_has_data img) (seq 0 (height img)));
    [destruct Hr|discriminate].
Qed.

(** A tight box lies within every rectangle that holds the nonzero pixels. *)
Lemma tight_box_least img b r :
  tight_box img b ->
  (forall x y, x < width img -> y < height img ->
               nonzero_at img x y = true -> in_box r x y) ->
  box_within b r.
Proof.
  destruct b as [[[x0 y0] x1] y1], r as [[[u0 v0] u1] v1].
  intros [[Hx Hy] [_ [[ya [Hya La]] [[yb [Hyb Lb]] [[xc [Hxc Lc]] [xd [Hxd Ld]]]]]]] Hin.
  cbn [box_within].
  pose proof (Hin x0 ya ltac:(lia) Hya La) as [? ?].
  pose proof (Hin (x1 - 1) yb ltac:(lia) Hyb Lb) as [? ?].
  pose proof (Hin xc y0 Hxc ltac:(lia) Lc) as [? ?].
  pose proof (Hin xd (y1 - 1) Hxd ltac:(lia) Ld) as [? ?].
  lia.
Qed.

(** A rectangle of the image whose pixels are exactly the nonzero ones is
    tight. *)
Lemma changed_rectangle_is_tight img x0 y0 x1 y1 :
  x0 < x1 <= width img -> y0 < y1 <= height img ->
  (forall x y, x < width img -> y < height img ->
     (nonzero_at img x y = true <-> in_box (x0, y0, x1, y1) x y)) ->
  tight_box img (x0, y0, x1, y1).
Proof.
  intros Hx Hy Hiff. unfold tight_box.
  assert (Hnz : forall x y, x0 <= x < x1 -> y0 <= y < y1 ->
                            nonzero_at img x y = true).
  { intros x y Hxx Hyy. apply Hiff; [lia|lia|]. cbn [in_box]. lia. }
  split; [split; assumption|]. split.
  { intros x y Hxw Hyh Hn. apply Hiff; assumption. }
  split; [exists y0; split; [lia|apply Hnz; lia]|].
  split; [exists y0; split; [lia|apply Hnz; lia]|].
  split; [exists x0; split; [lia|apply Hnz; lia]|].
  exists x0. split; [lia|apply Hnz; lia].
Qed.

(** ** The handle monad *)

Lemma write_each_run blocks h : write_each blocks h = (h ++ blocks, Ok tt).
Proof.
  revert h. induction blocks as [|b rest IH]; intros h; cbn [write_each].
  - unfold ret. rewrite app_nil_r. reflexivity.
  - unfold bind, write. rewrite IH, <- app_assoc. reflexivity.
Qed.

Lemma appends_ret {A} (a : A) : appends (ret a).
Proof. intros h. exists []. cbn. rewrite app_nil_r. reflexivity. Qed.

Lemma appends_call {A} (r : result A) : appends (call r).
Proof. intros h. exists []. cbn. rewrite app_nil_r. reflexivity. Qed.

Lemma appends_write b : appends (write b).
Proof. intros h. exists [b]. reflexivity. Qed.

Lemma appends_bind {A B} (m : M A) (k : A -> M B) :
  appends m -> (forall a, appends (k a)) -> appends (bind m k).
Proof.
  intros Hm Hk h. unfold bind. destruct (Hm h) as [a1 E1].
  destruct (m h) as [h' [a|e]]; cbn [fst] in E1; subst h'.
  - destruct (Hk a (h ++ a1)) as [a2 E2]. exists (a1 ++ a2).
    rewrite E2, app_assoc. reflexivity.
  - exists a1. reflexivity.
Qed.

Lemma appends_write_each blocks : appends (write_each blocks).
Proof. intros h. exists blocks. rewrite write_each_run. reflexivity. Qed.

(** ** Byte helpers *)

Lemma chr_latin1_ok c : c < 256 ->
  exists b, chr_latin1 c = Ok b /\ Byte.to_nat b = c.
Proof.
  intros Hc. unfold chr_latin1. destruct (Byte.of_nat c) as [b|] eqn:E.
  - exists b. split; [reflexivity|]. apply Byte.to_of_nat. exact E.
  - apply Byte.of_nat_None_iff in E. lia.
Qed.

Lemma chr_latin1_raise c : 256 <= c -> exists e, chr_latin1 c = Raise e.
Proof.
  intros Hc. unfold chr_latin1. destruct (Byte.of_nat c) as [b|] eqn:E.
  - apply Byte.to_of_nat in E. pose proof (Byte.to_nat_bounded b). lia.
  - destruct (N.of_nat c <? 1114112)%N; eauto.
Qed.

(** [int_to_bin] is the 16-bit little-endian encoding. *)
Lemma int_to_bin_ok i : i < 256 * 256 ->
  exists lo hi, int_to_bin i = Ok [lo; hi] /\
                Byte.to_nat lo + 256 * Byte.to_nat hi = i.
Proof.
  intros Hi. unfold int_to_bin.
  assert (H1 : i mod 256 < 256) by (apply Nat.mod_upper_bound; lia).
  assert (H2 : i / 256 < 256) by (apply Nat.Div0.div_lt_upper_bound; lia).
  destruct (chr_latin1_ok _ H1) as [lo [E1 V1]].
  destruct (chr_latin1_ok _ H2) as [hi [E2 V2]].
  exists lo, hi. rewrite E1, E2. split; [reflexivity|].
  rewrite V1, V2. rewrite (Nat.div_mod_eq i 256) at 3. lia.
Qed.

(** Sizes past 16 bits make [int_to_bin] raise. *)
Lemma int_to_bin_raise i : 256 * 256 <= i -> exists e, int_to_bin i = Raise e.
Proof.
  intros Hi. unfold int_to_bin.
  assert (H1 : i mod 256 < 256) by (apply Nat.mod_upper_bound; lia).
  assert (H2 : 256 <= i / 256) by (apply Nat.div_le_lower_bound; lia).
  destruct (chr_latin1_ok _ H1) as [lo [E1 _]].
  destruct (chr_latin1_raise _ H2) as [e E2].
  rewrite E1, E2. eauto.
Qed.


Lemma application_ext_forever : application_ext 0 = Ok netscape_ext.
Proof. reflexivity. Qed.

Lemma netscape_ext_length : length netscape_ext = 19.
Proof. reflexivity. Qed.

(** ** Differences between canvases *)


Lemma sub_mod_diag p : sub_mod p p = blank.
Proof.
  unfold sub_mod, blank. rewrite !Z.sub_diag, Z.mod_0_l by lia. reflexivity.
Qed.

Lemma size_subtract_modulo a b :
  size (subtract_modulo a b) =
  (Nat.min (width a) (width b), Nat.min (height a) (height b)).
Proof. reflexivity. Qed.

Lemma nonzero_at_subtract_modulo a b x y :
  x < Nat.min (width a) (width b) -> y < Nat.min (height a) (height b) ->
  nonzero_at (subtract_modulo a b) x y =
  negb (is_zero (sub_mod (getpixel a x y) (getpixel b x y))).
Proof.
  intros Hx Hy. unfold nonzero_at, subtract_modulo.
  rewrite getpixel_raster by assumption. reflexivity.
Qed.

(** Pixel-identical canvases have an empty delta region. *)
Lemma getbbox_same_pixels a b :
  same_pixels a b -> getbbox (subtract_modulo b a) = None.
Proof.
  intros [Hsize Hpix]. apply getbbox_empty. intros x y Hx Hy.
  unfold width, height in Hx, Hy. rewrite size_subtract_modulo in Hx, Hy.
  cbn [fst snd] in Hx, Hy.
  rewrite nonzero_at_subtract_modulo by assumption.
  rewrite Hpix by lia. rewrite sub_mod_diag. reflexivity.
Qed.


Lemma channel_diff_zero (a b : Z) :
  (0 <= a < 256)%Z -> (0 <= b < 256)%Z ->
  ((a - b) mod 256 =? 0)%Z = (a =? b)%Z.
Proof.
  intros Ha Hb. destruct (Z.eqb_spec a b) as [->|Hne].
  - rewrite Z.sub_diag, Z.mod_0_l by lia. reflexivity.
  - apply Z.eqb_neq. intros E.
    apply Z.mod_divide in E; [|lia]. destruct E as [k Hk]. lia.
Qed.

Lemma is_zero_sub_mod p q :
  in_range p -> in_range q -> is_zero (sub_mod p q) = pixel_eqb p q.
Proof.
  intros (Hr & Hg & Hb & Ha) (Hr' & Hg' & Hb' & Ha').
  unfold is_zero, pixel_eqb, sub_mod, blank. cbn [red green blue alpha].
  rewrite !channel_diff_zero by assumption. reflexivity.
Qed.

(** ** write_frames *)

Section EncoderFacts.

Variable getheader : Image -> result (list bytes * list nat).
Variable getdata : Image -> nat * nat -> result (list bytes).

Local Abbreviation first_frame := (first_frame getheader getdata).
Local Abbreviation delta_frame := (delta_frame getdata).
Local Abbreviation loop_body := (loop_body getheader getdata).
Local Abbreviation for_frames := (for_frames getheader getdata).
Local Abbreviation write_frames := (write_frames getheader getdata).

(** The first canvas, when the codec accepts it. *)
Lemma first_frame_run img h header used packed_bit palette lsd blocks :
  getheader img = Ok (header, used) ->
  nth_error header 1 = Some packed_bit ->
  nth_error header 3 = Some palette ->
  logical_screen_descriptor img packed_bit = Ok lsd ->
  getdata img (0, 0) = Ok blocks ->
  first_frame img h =
  (h ++ [header_block; lsd; palette; netscape_ext] ++ blocks, Ok tt).
Proof.
  intros Hh H1 H3 Hl Hd. unfold first_frame, bind, call, write, getitem.
  rewrite Hh. cbn [fst]. rewrite H1, Hl, H3, application_ext_forever, Hd.
  rewrite write_each_run. rewrite <- !app_assoc. reflexivity.
Qed.

(** A later canvas: what is written depends on the delta region and on the
    codec only. *)
Lemma delta_frame_run img prev h :
  delta_frame img prev h =
  match getbbox (subtract_modulo img prev) with
  | None => (h, Ok tt)
  | Some b =>
      match getdata (crop img b) (box_origin b) with
      | Ok data => (h ++ data, Ok tt)
      | Raise e => (h, Raise e)
      end
  end.
Proof.
  unfold delta_frame. destruct (getbbox (subtract_modulo img prev)) as [b|].
  - unfold bind, call. destruct (getdata (crop img b) (box_origin b)).
    + apply write_each_run.
    + reflexivity.
  - reflexivity.
Qed.

Lemma loop_body_some prev img h :
  loop_body (Some prev) img h =
  match delta_frame img prev h with
  | (h', Ok _) => (h', Ok (Some img))
  | (h', Raise e) => (h', Raise e)
  end.
Proof. reflexivity. Qed.

Lemma loop_body_none img h :
  loop_body None img h =
  match first_frame img h with
  | (h', Ok _) => (h', Ok (Some img))
  | (h', Raise e) => (h', Raise e)
  end.
Proof. reflexivity. Qed.

(** After an iteration that did not raise, the retained canvas is the one
    just processed. *)
Lemma loop_body_retains prev img h h' p :
  loop_body prev img h = (h', Ok p) -> p = Some (copy img).
Proof.
  unfold loop_body, bind, ret. intros E.
  destruct (match prev with
            | Some prev0 => delta_frame img prev0
            | None => first_frame img
            end h) as [h1 [u|e]]; congruence.
Qed.

Lemma for_frames_app prev l1 l2 h :
  for_frames prev (l1 ++ l2) h =
  (p <- for_frames prev l1 ;; for_frames p l2) h.
Proof.
  revert prev h. induction l1 as [|img l1 IH]; intros prev h.
  - reflexivity.
  - change (for_frames prev ((img :: l1) ++ l2) h)
      with (bind (loop_body prev img) (fun p => for_frames p (l1 ++ l2)) h).
    change (for_frames prev (img :: l1))
      with (bind (loop_body prev img) (fun p => for_frames p l1)).
    unfold bind.
    destruct (loop_body prev img h) as [h1 [p|e]]; [|reflexivity].
    rewrite IH. reflexivity.
Qed.

Lemma for_frames_retains prev l img h h' p :
  for_frames prev (l ++ [img]) h = (h', Ok p) -> p = Some (copy img).
Proof.
  rewrite for_frames_app. unfold bind at 1.
  destruct (for_frames prev l h) as [h1 [p1|e]]; [|discriminate].
  cbn [for_frames]. unfold bind at 1.
  destruct (loop_body p1 img h1) as [h2 [p2|e]] eqn:E; [|discriminate].
  unfold ret. intros [= <- <-]. eapply loop_body_retains. exact E.
Qed.

Lemma appends_first_frame img : appends (first_frame img).
Proof.
  unfold first_frame.
  repeat first [ apply appends_bind; [|intros ?]
               | apply appends_call | apply appends_write
               | apply appends_write_each ].
Qed.

Lemma appends_delta_frame img prev : appends (delta_frame img prev).
Proof.
  unfold delta_frame. destruct (getbbox (subtract_modulo img prev)).
  - apply appends_bind; [apply appends_call|intros ?; apply appends_write_each].
  - apply appends_ret.
Qed.

Lemma appends_loop_body prev img : appends (loop_body prev img).
Proof.
  unfold loop_body. apply appends_bind; [|intros ?; apply appends_ret].
  destruct prev; [apply appends_delta_frame|apply appends_first_frame].
Qed.

Lemma appends_for_frames l : forall prev, appends (for_frames prev l).
Proof.
  induction l as [|img rest IH]; intros prev; cbn [for_frames].
  - apply appends_ret.
  - apply appends_bind; [apply appends_loop_body|intros p; apply IH].
Qed.

Lemma appends_write_frames frames : appends (write_frames frames).
Proof.
  unfold write_frames.
  apply appends_bind; [apply appends_for_frames|intros ?; apply appends_write].
Qed.


Lemma for_frames_run data :
  (forall img offset, getdata img offset = Ok (data img offset)) ->
  forall frames prev h,
    for_frames (Some prev) frames h =
    (h ++ delta_blocks data prev frames, Ok (Some (List.last frames prev))).
Proof.
  intros Hdata l. induction l as [|img rest IH]; intros prev h.
  - cbn. unfold ret. rewrite app_nil_r. reflexivity.
  - cbn [for_frames delta_blocks]. unfold bind at 1.
    rewrite loop_body_some, delta_frame_run.
    destruct (getbbox (subtract_modulo img prev)) as [b|].
    + rewrite Hdata, IH, <- app_assoc, (last_cons_default img prev rest).
      reflexivity.
    + rewrite IH, (last_cons_default img prev rest). reflexivity.
Qed.

End EncoderFacts.

(** ** The claims about write_frames *)

Lemma logical_screen_descriptor_ok img flags :
  width img < 256 * 256 -> height img < 256 * 256 ->
  exists w_lo w_hi h_lo h_hi,
    logical_screen_descriptor img [flags] =
      Ok [w_lo; w_hi; h_lo; h_hi; flags; x00; x00] /\
    Byte.to_nat w_lo + 256 * Byte.to_nat w_hi = width img /\
    Byte.to_nat h_lo + 256 * Byte.to_nat h_hi = height img.
Proof.
  unfold width, height, logical_screen_descriptor.
  destruct (size img) as [img_x img_y]. cbn [fst snd]. intros Hx Hy.
  destruct (int_to_bin_ok img_x Hx) as [w_lo [w_hi [Ew Vw]]].
  destruct (int_to_bin_ok img_y Hy) as [h_lo [h_hi [Eh Vh]]].
  exists w_lo, w_hi, h_lo, h_hi. rewrite Ew, Eh. auto.
Qed.

Lemma write_frames_run getheader getdata data first rest h
    header used packed_bit palette lsd :
  getheader first = Ok (header, used) ->
  nth_error header 1 = Some packed_bit ->
  nth_error header 3 = Some palette ->
  logical_screen_descriptor first packed_bit = Ok lsd ->
  (forall img offset, getdata img offset = Ok (data img offset)) ->
  write_frames getheader getdata (first :: rest) h =
  (h ++ [header_block; lsd; palette; netscape_ext] ++ data first (0, 0)
     ++ delta_blocks data first rest ++ [trailer], Ok tt).
Proof.
  intros Hh H1 H3 Hl Hd. unfold write_frames. cbn [for_frames].
  unfold bind. rewrite loop_body_none.
  rewrite (first_frame_run _ _ _ _ _ _ _ _ _ _ Hh H1 H3 Hl (Hd first (0, 0))).
  rewrite (for_frames_run _ _ data Hd). unfold write.
  rewrite <- !app_assoc. reflexivity.
Qed.

(** C1. Two pixel-identical canvases give exactly one frame-data block: the
    difference of the second against the first has no bounding box, so the
    handle receives the header blocks, the blocks of the first canvas and the
    trailer, and nothing for the second canvas; the output is that of the
    first canvas alone. *)
Theorem identical_canvases_write_one_frame getheader getdata c1 c2 h
    header used packed_bit palette lsd blocks :
  same_pixels c1 c2 ->
  getheader c1 = Ok (header, used) ->
  nth_error header 1 = Some packed_bit ->
  nth_error header 3 = Some palette ->
  logical_screen_descriptor c1 packed_bit = Ok lsd ->
  getdata c1 (0, 0) = Ok blocks ->
  getbbox (subtract_modulo c2 c1) = None /\
  write_frames getheader getdata [c1; c2] h =
    (h ++ [header_block; lsd; palette; netscape_ext] ++ blocks ++ [trailer],
     Ok tt) /\
  write_frames getheader getdata [c1; c2] h =
    write_frames getheader getdata [c1] h.
Proof.
  intros Hsame Hh H1 H3 Hl Hd.
  pose proof (getbbox_same_pixels _ _ Hsame) as Hbox.
  pose proof (first_frame_run getheader getdata _ h _ _ _ _ _ _ Hh H1 H3 Hl Hd)
    as Hfirst.
  split; [exact Hbox|].
  assert (Hpair : write_frames getheader getdata [c1; c2] h =
                  write_frames getheader getdata [c1] h).
  { unfold write_frames. cbn [for_frames]. unfold bind.
    rewrite loop_body_none, Hfirst, loop_body_some, delta_frame_run, Hbox.
    reflexivity. }
  split; [|exact Hpair].
  rewrite Hpair. unfold write_frames. cbn [for_frames]. unfold bind.
  rewrite loop_body_none, Hfirst. unfold ret, write.
  rewrite <- !app_assoc. reflexivity.
Qed.

Lemma identical_canvases_witness :
  write_frames sample_getheader sample_getdata [canvas_red; canvas_red] [] =
  (sample_preamble ++ sample_blocks canvas_red (0, 0) ++ [trailer], Ok tt).
Proof.
  refine (proj1 (proj2 (identical_canvases_write_one_frame
            sample_getheader sample_getdata canvas_red canvas_red []
            _ _ _ _ _ _ _ eq_refl eq_refl eq_refl eq_refl eq_refl))).
  split; [reflexivity|intros; reflexivity].
Defined.

(** C2, as stated, fails.  [canvas_patched] is [canvas_striped] with the
    rectangle (0, 0, 2, 2) painted green; the two 3x3 canvases differ only
    within that rectangle, but its left column was green already, and the
    second frame block is declared at offset (1, 0) with size 1x2: the box
    of the pixels that differ, not the rectangle that was painted. *)
Lemma delta_box_is_not_any_enclosing_rectangle :
  size canvas_striped = size canvas_patched /\
  (forall x y, getpixel canvas_striped x y <> getpixel canvas_patched x y ->
               in_box (0, 0, 2, 2) x y) /\
  write_frames sample_getheader sample_getdata
    [canvas_striped; canvas_patched] [] =
    ([ list_byte_of_string "GIF89a";
       [x03; x00; x03; x00; x80; x00; x00];
       [xff; x00; x00];
       netscape_ext;
       [x2c; x00; x00; x03; x03]; [x00];
       [x2c; x01; x00; x01; x02]; [x00];
       [x3b] ], Ok tt) /\
  getbbox (subtract_modulo canvas_patched canvas_striped) = Some (1, 0, 2, 2) /\
  box_origin (1, 0, 2, 2) <> box_origin (0, 0, 2, 2) /\
  box_size (1, 0, 2, 2) <> box_size (0, 0, 2, 2).
Proof.
  split; [reflexivity|]. split.
  { intros x y Hne. cbn [in_box].
    destruct x as [|[|[|x]]], y as [|[|[|y]]]; try lia;
      exfalso; apply Hne; try reflexivity.
    all: try (destruct x; reflexivity); try (destruct y; reflexivity). }
  split; [reflexivity|]. split; [reflexivity|]. split; discriminate.
Qed.

(** C2, amended.  When [b] is the least rectangle holding every pixel of the
    second canvas whose difference to the first is nonzero modulo 256 in some
    channel, the second frame block is the codec's output for the second
    canvas cropped to [b], requested at the offset of [b]'s upper left corner,
    and the crop has [b]'s dimensions; [b] lies within every rectangle the
    two canvases differ only within. *)
Theorem delta_frame_crops_to_tight_box getheader getdata c1 c2 b h
    header used packed_bit palette lsd blocks data :
  tight_box (subtract_modulo c2 c1) b ->
  getheader c1 = Ok (header, used) ->
  nth_error header 1 = Some packed_bit ->
  nth_error header 3 = Some palette ->
  logical_screen_descriptor c1 packed_bit = Ok lsd ->
  getdata c1 (0, 0) = Ok blocks ->
  getdata (crop c2 b) (box_origin b) = Ok data ->
  getbbox (subtract_modulo c2 c1) = Some b /\
  write_frames getheader getdata [c1; c2] h =
    (h ++ [header_block; lsd; palette; netscape_ext] ++ blocks ++ data
       ++ [trailer], Ok tt) /\
  size (crop c2 b) = box_size b /\
  (forall r,
     (forall x y,
        x < width (subtract_modulo c2 c1) -> y < height (subtract_modulo c2 c1) ->
        nonzero_at (subtract_modulo c2 c1) x y = true -> in_box r x y) ->
     box_within b r).
Proof.
  intros Htight Hh H1 H3 Hl Hd Hc.
  pose proof (getbbox_tight _ _ Htight) as Hbox.
  split; [exact Hbox|]. split;
    [|split; [apply size_crop|intros r; apply tight_box_least; exact Htight]].
  unfold write_frames. cbn [for_frames]. unfold bind.
  rewrite loop_body_none.
  rewrite (first_frame_run _ _ _ _ _ _ _ _ _ _ Hh H1 H3 Hl Hd).
  rewrite loop_body_some, delta_frame_run, Hbox, Hc.
  unfold ret, write. rewrite <- !app_assoc. reflexivity.
Qed.

Lemma delta_frame_crops_witness :
  tight_box (subtract_modulo canvas_dot canvas_red) (1, 1, 2, 2) /\
  write_frames sample_getheader sample_getdata [canvas_red; canvas_dot] [] =
    (sample_preamble ++ sample_blocks canvas_red (0, 0)
       ++ sample_blocks (crop canvas_dot (1, 1, 2, 2)) (1, 1) ++ [trailer],
     Ok tt).
Proof.
  assert (Htight : tight_box (subtract_modulo canvas_dot canvas_red) (1, 1, 2, 2)).
  { apply getbbox_sound. reflexivity. }
  split; [exact Htight|].
  exact (proj1 (proj2 (delta_frame_crops_to_tight_box
           sample_getheader sample_getdata canvas_red canvas_dot (1, 1, 2, 2) []
           _ _ _ _ _ _ _ Htight eq_refl eq_refl eq_refl eq_refl eq_refl eq_refl))).
Defined.

(** C6. The baseline of the delta comparison is the canvas just before:
    whatever the frames before [a] were, and whether or not a block was
    written for [a], the canvas [b] that follows [a] is processed by
    [delta_frame b a]; and an iteration that completes retains (a copy of)
    the uncropped canvas it was given. *)
Theorem baseline_is_preceding_canvas getheader getdata :
  (forall prev before a b rest h,
     for_frames getheader getdata prev (before ++ a :: b :: rest) h =
     (for_frames getheader getdata prev (before ++ [a]) ;;;
      delta_frame getdata b a ;;;
      for_frames getheader getdata (Some (copy b)) rest) h) /\
  (forall prev before a h h' kept,
     for_frames getheader getdata prev (before ++ [a]) h = (h', Ok kept) ->
     kept = Some (copy a)) /\
  (forall prev a h,
     snd (loop_body getheader getdata prev a h) = Ok (Some (copy a)) \/
     exists e, snd (loop_body getheader getdata prev a h) = Raise e).
Proof.
  split; [|split].
  - intros prev before a b rest h.
    replace (before ++ a :: b :: rest) with ((before ++ [a]) ++ b :: rest)
      by (rewrite <- app_assoc; reflexivity).
    rewrite for_frames_app. unfold bind.
    destruct (for_frames getheader getdata prev (before ++ [a]) h)
      as [h1 [kept|e]] eqn:E; [|reflexivity].
    apply for_frames_retains in E. subst kept.
    cbn [for_frames]. unfold bind, copy.
    rewrite loop_body_some.
    destruct (delta_frame getdata b a h1) as [h2 [u|e]]; reflexivity.
  - intros prev before a h h' kept E. eapply for_frames_retains. exact E.
  - intros prev a h.
    destruct (loop_body getheader getdata prev a h) as [h1 [kept|e]] eqn:E.
    + left. apply loop_body_retains in E. subst kept. reflexivity.
    + right. exists e. reflexivity.
Qed.

(** C7. The stream of a non-empty sequence, when the codec accepts the
    canvases, its header holds one flags byte and the canvas sides fit 16
    bits: signature and version, the 7-byte screen descriptor (width and
    height little-endian, the flags byte of the first canvas's header, two
    zero bytes), the colour table of that header, the 19-byte NETSCAPE2.0
    extension with loop count 0, the blocks of the first canvas and of every
    later canvas with a non-empty delta region, and one trailer byte. *)
Theorem write_frames_stream_layout getheader getdata data first rest
    header used flags palette :
  getheader first = Ok (header, used) ->
  nth_error header 1 = Some [flags] ->
  nth_error header 3 = Some palette ->
  width first < 256 * 256 -> height first < 256 * 256 ->
  (forall img offset, getdata img offset = Ok (data img offset)) ->
  exists w_lo w_hi h_lo h_hi out,
    write_frames getheader getdata (first :: rest) [] = (out, Ok tt) /\
    Byte.to_nat w_lo + 256 * Byte.to_nat w_hi = width first /\
    Byte.to_nat h_lo + 256 * Byte.to_nat h_hi = height first /\
    stream out =
      [x47; x49; x46] ++ [x38; x39; x61]
      ++ [w_lo; w_hi; h_lo; h_hi; flags; x00; x00]
      ++ palette
      ++ ([x21; xff; x0b] ++ list_byte_of_string "NETSCAPE2.0"
            ++ [x03; x01] ++ [x00; x00] ++ [x00])
      ++ stream (data first (0, 0))
      ++ stream (delta_blocks data first rest)
      ++ [x3b] /\
    length ([x21; xff; x0b] ++ list_byte_of_string "NETSCAPE2.0"
              ++ [x03; x01] ++ [x00; x00] ++ [x00]) = 19.
Proof.
  intros Hh H1 H3 Hw Hht Hd.
  destruct (logical_screen_descriptor_ok first flags Hw Hht)
    as [w_lo [w_hi [h_lo [h_hi [Hl [Vw Vh]]]]]].
  exists w_lo, w_hi, h_lo, h_hi. eexists. split.
  { apply (write_frames_run getheader getdata data first rest []
             header used [flags] palette _ Hh H1 H3 Hl Hd). }
  split; [exact Vw|]. split; [exact Vh|]. split; [|reflexivity].
  unfold stream. cbn [app]. rewrite !concat_cons, !concat_app.
  cbn [List.concat]. rewrite app_nil_r. unfold header_block, netscape_ext, trailer.
  cbn [List.concat app]. rewrite <- !app_assoc. reflexivity.
Qed.

Lemma write_frames_stream_witness :
  exists w_lo w_hi h_lo h_hi out,
    write_frames sample_getheader sample_getdata
      [canvas_red; canvas_red; canvas_dot] [] = (out, Ok tt) /\
    Byte.to_nat w_lo + 256 * Byte.to_nat w_hi = 2 /\
    Byte.to_nat h_lo + 256 * Byte.to_nat h_hi = 2 /\
    stream out =
      [x47; x49; x46] ++ [x38; x39; x61]
      ++ [w_lo; w_hi; h_lo; h_hi; x80; x00; x00]
      ++ [xff; x00; x00]
      ++ ([x21; xff; x0b] ++ list_byte_of_string "NETSCAPE2.0"
            ++ [x03; x01] ++ [x00; x00] ++ [x00])
      ++ stream (sample_blocks canvas_red (0, 0))
      ++ stream (delta_blocks sample_blocks canvas_red [canvas_red; canvas_dot])
      ++ [x3b] /\
    length ([x21; xff; x0b] ++ list_byte_of_string "NETSCAPE2.0"
              ++ [x03; x01] ++ [x00; x00] ++ [x00]) = 19.
Proof.
  apply (write_frames_stream_layout sample_getheader sample_getdata
           sample_blocks canvas_red [canvas_red; canvas_dot]
           _ _ x80 [xff; x00; x00] eq_refl eq_refl eq_refl).
  - change (2 < 256 * 256). lia.
  - change (2 < 256 * 256). lia.
  - intros img offset. reflexivity.
Defined.

(** C8, as stated, fails: the second canvas below is 1x1 after a 2x1 first
    canvas, and the encoder completes without raising; the second canvas is
    written as a 1x1 block at offset (0, 0), followed by the trailer. *)
Lemma mismatched_canvas_is_encoded :
  size canvas_small <> size canvas_wide /\
  write_frames sample_getheader sample_getdata [canvas_wide; canvas_small] [] =
    ([ list_byte_of_string "GIF89a";
       [x02; x00; x01; x00; x80; x00; x00];
       [xff; x00; x00];
       netscape_ext;
       [x2c; x00; x00; x02; x01]; [x00];
       [x2c; x00; x00; x01; x01]; [x00];
       [x3b] ], Ok tt).
Proof. split; [discriminate|reflexivity]. Qed.

(** C8, amended.  [write_frames] never compares canvas sizes.  A canvas after
    the first, whatever its size, is compared with its predecessor over the
    region the two share; it raises only if the codec does, and then nothing
    of that canvas has been written: the handle is as the canvases before it
    left it, and the loop stops without a trailer.  Whatever happens, the
    handle only grows by appending. *)
Theorem no_geometry_check_and_atomic_failure getheader getdata :
  (forall img prev,
     size (subtract_modulo img prev) =
     (Nat.min (width img) (width prev), Nat.min (height img) (height prev))) /\
  (forall img prev h,
     delta_frame getdata img prev h =
     match getbbox (subtract_modulo img prev) with
     | None => (h, Ok tt)
     | Some b =>
         match getdata (crop img b) (box_origin b) with
         | Ok data => (h ++ data, Ok tt)
         | Raise e => (h, Raise e)
         end
     end) /\
  (forall before img rest h h1 prev b e,
     for_frames getheader getdata None before h = (h1, Ok (Some prev)) ->
     getbbox (subtract_modulo img prev) = Some b ->
     getdata (crop img b) (box_origin b) = Raise e ->
     write_frames getheader getdata (before ++ img :: rest) h = (h1, Raise e)) /\
  (forall l h, exists added,
     fst (write_frames getheader getdata l h) = h ++ added).
Proof.
  split; [intros; apply size_subtract_modulo|].
  split; [intros; apply delta_frame_run|].
  split; [|intros l h; apply appends_write_frames].
  intros before img rest h h1 prev b e Hbefore Hbox Hraise.
  unfold write_frames, bind. rewrite for_frames_app. unfold bind.
  rewrite Hbefore. cbn [for_frames]. unfold bind.
  rewrite loop_body_some, delta_frame_run, Hbox, Hraise. reflexivity.
Qed.

(** The codec refusing the third canvas: the handle keeps what the first two
    canvases wrote, and no trailer follows. *)
Example codec_failure_keeps_prefix :
  write_frames sample_getheader narrow_getdata
    [canvas_wide; canvas_wide; canvas_small] [] =
  ([ list_byte_of_string "GIF89a";
     [x02; x00; x01; x00; x80; x00; x00];
     [xff; x00; x00];
     netscape_ext;
     [x2c; x00; x00; x02; x01]; [x00] ], Raise (CodecError 1)).
Proof. reflexivity. Qed.

(** C10. For the empty sequence the handle receives one chunk, the trailer
    byte 0x3B, and nothing else: no signature, screen descriptor, colour
    table or extension; the stream does not even start with the
    signature. *)
Theorem empty_sequence_writes_only_trailer getheader getdata :
  (forall h, write_frames getheader getdata [] h = (h ++ [[x3b]], Ok tt)) /\
  stream (fst (write_frames getheader getdata [] [])) = [x3b] /\
  length (stream (fst (write_frames getheader getdata [] []))) = 1 /\
  ~ (exists tail,
       stream (fst (write_frames getheader getdata [] [])) =
       header_block ++ tail).
Proof.
  split; [reflexivity|]. split; [reflexivity|]. split; [reflexivity|].
  intros [tail E]. discriminate E.
Qed.

(** Why C7 asks for sides below 65536: a wider canvas makes the screen
    descriptor raise, after the signature has been written. *)
Lemma oversized_canvas_raises getheader getdata img rest h header used packed_bit :
  getheader img = Ok (header, used) ->
  nth_error header 1 = Some packed_bit ->
  256 * 256 <= width img ->
  exists e,
    write_frames getheader getdata (img :: rest) h = (h ++ [header_block], Raise e).
Proof.
  intros Hh H1 Hw.
  assert (Hl : exists e, logical_screen_descriptor img packed_bit = Raise e).
  { unfold logical_screen_descriptor, width in *.
    destruct (size img) as [img_x img_y]. cbn [fst] in Hw.
    destruct (int_to_bin_raise img_x Hw) as [e E]. rewrite E. eauto. }
  destruct Hl as [e Hl]. exists e.
  unfold write_frames. cbn [for_frames]. unfold bind.
  rewrite loop_body_none. unfold first_frame, bind, call, write, getitem.
  rewrite Hh. cbn [fst]. rewrite H1, Hl. reflexivity.
Qed.

(** ** The object store *)

Lemma deref_alloc σ img : deref (σ ++ [img]) (length σ) = img.
Proof.
  unfold deref. rewrite lookup_app_r by lia.
  rewrite Nat.sub_diag. reflexivity.
Qed.

Lemma deref_alloc_second σ a b : deref (σ ++ [a; b]) (S (length σ)) = b.
Proof.
  unfold deref. rewrite lookup_app_r by lia.
  replace (S (length σ) - length σ) with 1 by lia. reflexivity.
Qed.

Lemma deref_alloc_old σ img r : r < length σ -> deref (σ ++ [img]) r = deref σ r.
Proof. intros Hr. unfold deref. rewrite lookup_app_l by exact Hr. reflexivity. Qed.

Lemma update_alloc σ img f :
  update (σ ++ [img]) (length σ) f = σ ++ [f img].
Proof.
  unfold update. rewrite lookup_app_r by lia. rewrite Nat.sub_diag.
  cbn [lookup list_lookup]. rewrite insert_app_r_alt by lia.
  rewrite Nat.sub_diag. reflexivity.
Qed.

Lemma run_script_idle σ : run_script [] σ = σ.
Proof. reflexivity. Qed.

(** ** Sizes *)

Lemma size_eta img : (width img, height img) = size img.
Proof. unfold width, height. destruct (size img). reflexivity. Qed.

Lemma size_paste dst src : size (paste dst src) = size dst.
Proof. unfold paste. rewrite size_raster. apply size_eta. Qed.

Lemma size_paste_mask dst src mask : size (paste_mask dst src mask) = size dst.
Proof. unfold paste_mask. rewrite size_raster. apply size_eta. Qed.

Lemma size_putpixel img x y p : size (putpixel img x y p) = size img.
Proof. unfold putpixel. rewrite size_raster. apply size_eta. Qed.

Lemma size_Image_new sz : size (Image_new sz) = sz.
Proof. destruct sz. reflexivity. Qed.

Lemma size_render orig prev : size (render orig prev) = source_size orig.
Proof.
  unfold render. rewrite size_paste_mask.
  destruct (is_partial_frame orig).
  - rewrite size_paste. apply size_Image_new.
  - apply size_Image_new.
Qed.

(** ** One step of the generator *)

(** The source after [if not orig.getpalette(): orig.putpalette(palette)]. *)
Lemma loop_iteration_yields orig p prev σ :
  let orig' := if truthy (getpalette orig) then load orig
               else mkSource (file orig) (tell orig) (Some p) [] in
  loop_iteration orig (Some p) prev σ =
  (σ ++ [render orig' (deref (σ ++ [Image_new (source_size orig')]) prev)],
   Suspended orig' (Some p) prev (length σ), Yield (length σ)).
Proof.
  unfold loop_iteration. cbv zeta.
  change (getpalette (load orig)) with (getpalette orig).
  destruct (truthy (getpalette orig)); cbn [putpalette load file tell tile];
    unfold alloc, render.
  - destruct (is_partial_frame (load orig)); rewrite ?update_alloc; reflexivity.
  - destruct (is_partial_frame (mkSource (file orig) (tell orig) (Some p) []));
      rewrite ?update_alloc; reflexivity.
Qed.

Lemma seek_next orig f :
  nth_error (frames (file orig)) (tell orig + 1) = Some f ->
  seek orig (tell orig + 1) =
  Ok (mkSource (file orig) (tell orig + 1)
        (frame_palette (file orig) (tell orig + 1))
        (frame_tile (file orig) (tell orig + 1))).
Proof. intros E. unfold seek. rewrite E. reflexivity. Qed.

Lemma seek_past_end orig :
  length (frames (file orig)) <= tell orig + 1 ->
  seek orig (tell orig + 1) = Raise EOFError.
Proof.
  intros Hlen. unfold seek.
  destruct (nth_error (frames (file orig)) (tell orig + 1)) eqn:E;
    [|reflexivity].
  assert (nth_error (frames (file orig)) (tell orig + 1) <> None) by congruence.
  apply nth_error_Some in H. lia.
Qed.

Lemma seek_raises_only_eof orig n e : seek orig n = Raise e -> e = EOFError.
Proof.
  unfold seek. destruct (nth_error (frames (file orig)) n); congruence.
Qed.

(** Resuming a suspended generator while frames remain. *)
Lemma next_suspended_more orig p prev cur σ f :
  nth_error (frames (file orig)) (tell orig + 1) = Some f ->
  next (Suspended orig (Some p) prev cur) σ =
  (σ ++ [render (positioned (file orig) p (tell orig + 1))
           (deref (σ ++ [Image_new (screen (file orig))]) cur)],
   Suspended (positioned (file orig) p (tell orig + 1)) (Some p) cur (length σ),
   Yield (length σ)).
Proof.
  intros E. cbn [next]. rewrite (seek_next _ _ E).
  rewrite loop_iteration_yields. cbv zeta.
  unfold positioned, load. cbn [file tell getpalette].
  destruct (truthy (frame_palette (file orig) (tell orig + 1))); reflexivity.
Qed.

(** Resuming it after the last frame. *)
Lemma next_suspended_end orig palette prev cur σ :
  length (frames (file orig)) <= tell orig + 1 ->
  next (Suspended orig palette prev cur) σ = (σ, Closed, StopIteration).
Proof. intros Hlen. cbn [next]. rewrite seek_past_end by exact Hlen. reflexivity. Qed.

Lemma frame_palette_first gif f rest :
  frames gif = f :: rest -> exists p, frame_palette gif 0 = Some p.
Proof.
  intros E. unfold frame_palette. rewrite E. cbn.
  destruct (local_palette f); eauto.
Qed.

(** Starting the generator. *)
Lemma next_created gif p σ :
  frame_palette gif 0 = Some p ->
  next (read_frames (Image_open gif)) σ =
  (σ ++ [convert_RGBA (Image_open gif);
         render (positioned gif p 0) (convert_RGBA (Image_open gif))],
   Suspended (positioned gif p 0) (Some p) (length σ) (S (length σ)),
   Yield (S (length σ))).
Proof.
  intros Hp. unfold read_frames. cbn [next]. cbv zeta. unfold alloc.
  change (getpalette (load (Image_open gif))) with (frame_palette gif 0).
  change (convert_RGBA (load (Image_open gif)))
    with (convert_RGBA (Image_open gif)).
  rewrite Hp, loop_iteration_yields. cbv zeta.
  rewrite length_app. cbn [length]. rewrite Nat.add_1_r.
  rewrite deref_alloc_old by (rewrite length_app; cbn; lia).
  rewrite deref_alloc.
  unfold positioned, Image_open, load. cbn [file tell getpalette]. rewrite Hp.
  destruct (truthy (Some p)); rewrite <- app_assoc; reflexivity.
Qed.

Lemma file_positioned gif p k : file (positioned gif p k) = gif.
Proof. unfold positioned. cbn. destruct (truthy _); reflexivity. Qed.

Lemma tell_positioned gif p k : tell (positioned gif p k) = k.
Proof. unfold positioned. cbn. destruct (truthy _); reflexivity. Qed.

Lemma source_size_positioned gif p k : source_size (positioned gif p k) = screen gif.
Proof. unfold source_size. rewrite file_positioned. reflexivity. Qed.

(** ** Running the generator to its end *)

Section Runs.
Variable gif : GifFile.
Variable p : Palette.

(** However the consumer repaints what it was given, a suspended
    generator yields one canvas per remaining frame, each of the screen
    size, and then stops. *)
Lemma iterate_suspended consumer : forall count orig prev cur σ k n,
  file orig = gif ->
  length (frames gif) = tell orig + 1 + count ->
  count < n ->
  exists canvases,
    iterate n consumer k (Suspended orig (Some p) prev cur) σ =
      (canvases, Finished) /\
    length canvases = count /\
    Forall (fun canvas => size canvas = screen gif) canvases.
Proof.
  induction count as [|count IH]; intros orig prev cur σ k n Hfile Hlen Hn;
    (destruct n as [|n]; [lia|]); cbn [iterate].
  - rewrite next_suspended_end by (rewrite Hfile; lia).
    exists []. repeat split. constructor.
  - destruct (nth_error (frames (file orig)) (tell orig + 1)) as [f|] eqn:E.
    2: { apply nth_error_None in E. rewrite Hfile in E. lia. }
    rewrite (next_suspended_more _ _ _ _ _ _ E). rewrite Hfile.
    rewrite deref_alloc.
    edestruct (IH (positioned gif p (tell orig + 1)) cur (length σ))
      as [rest [Erest [Hcount Hsizes]]].
    { apply file_positioned. }
    { rewrite tell_positioned. lia. }
    { apply (proj2 (Nat.succ_lt_mono count n)). exact Hn. }
    rewrite Erest. eexists. split; [reflexivity|]. split.
    + cbn [length]. rewrite Hcount. reflexivity.
    + constructor; [|exact Hsizes].
      rewrite size_render. apply source_size_positioned.
Qed.

(** Left alone, it yields exactly the canvases of the remaining frames,
    each built on the one before. *)
Lemma iterate_idle_suspended : forall count orig prev cur σ k n,
  file orig = gif ->
  cur < length σ ->
  length (frames gif) = tell orig + 1 + count ->
  count < n ->
  iterate n idle k (Suspended orig (Some p) prev cur) σ =
  (canvases_from gif p (deref σ cur) (tell orig + 1) count, Finished).
Proof.
  induction count as [|count IH];
    intros orig prev cur σ k n Hfile Hcur Hlen Hn;
    (destruct n as [|n]; [lia|]); cbn [iterate canvases_from].
  - rewrite next_suspended_end by (rewrite Hfile; lia). reflexivity.
  - destruct (nth_error (frames (file orig)) (tell orig + 1)) as [f|] eqn:E.
    2: { apply nth_error_None in E. rewrite Hfile in E. lia. }
    rewrite (next_suspended_more _ _ _ _ _ _ E). rewrite Hfile.
    rewrite deref_alloc, deref_alloc_old by exact Hcur.
    unfold idle at 1. rewrite run_script_idle.
    rewrite IH.
    + rewrite deref_alloc, tell_positioned.
      replace (tell orig + 1 + 1) with (S (tell orig + 1)) by lia.
      reflexivity.
    + apply file_positioned.
    + rewrite length_app. cbn [length]. lia.
    + rewrite tell_positioned. lia.
    + lia.
Qed.
End Runs.

(** The whole iteration over a freshly opened source. *)
Lemma iterate_read_frames gif consumer σ n :
  frames gif <> [] ->
  length (frames gif) < n ->
  exists canvases,
    iterate n consumer 0 (read_frames (Image_open gif)) σ =
      (canvases, Finished) /\
    length canvases = length (frames gif) /\
    Forall (fun canvas => size canvas = screen gif) canvases.
Proof.
  intros Hne Hn. destruct (frames gif) as [|f rest] eqn:Ef; [congruence|].
  destruct (frame_palette_first gif f rest Ef) as [p Hp].
  destruct n as [|n]; [lia|]. cbn [iterate].
  rewrite (next_created gif p σ Hp).
  edestruct (iterate_suspended gif p consumer (length rest)
               (positioned gif p 0) (length σ) (S (length σ)))
    as [more [Emore [Hcount Hsizes]]].
  { apply file_positioned. }
  { rewrite tell_positioned, Ef. cbn [length]. lia. }
  { cbn [length] in Hn. apply (proj2 (Nat.succ_lt_mono (length rest) n)). exact Hn. }
  rewrite Emore. eexists. split; [reflexivity|]. split.
  - cbn [length]. rewrite Hcount. reflexivity.
  - constructor; [|exact Hsizes].
    rewrite deref_alloc_second, size_render. apply source_size_positioned.
Qed.

Lemma iterate_idle_read_frames gif σ n :
  frames gif <> [] ->
  length (frames gif) < n ->
  iterate n idle 0 (read_frames (Image_open gif)) σ = (decoded gif, Finished).
Proof.
  intros Hne Hn. destruct (frames gif) as [|f rest] eqn:Ef; [congruence|].
  destruct (frame_palette_first gif f rest Ef) as [p Hp].
  destruct n as [|n]; [lia|]. cbn [iterate].
  rewrite (next_created gif p σ Hp).
  unfold idle at 1. rewrite run_script_idle.
  rewrite deref_alloc_second.
  rewrite (iterate_idle_suspended gif p (length rest)).
  - rewrite deref_alloc_second, tell_positioned. unfold decoded.
    rewrite Hp, Ef. reflexivity.
  - apply file_positioned.
  - rewrite length_app. cbn [length]. lia.
  - rewrite tell_positioned, Ef. cbn [length]. lia.
  - cbn [length] in Hn. lia.
Qed.

(** ** What a canvas holds *)

Lemma blend_pixel_opaque d s : blend_pixel 255 d s = s.
Proof. destruct s. reflexivity. Qed.

Lemma getpixel_convert_RGBA orig x y :
  x < fst (source_size orig) -> y < snd (source_size orig) ->
  getpixel (convert_RGBA orig) x y =
  held_pixel (match getpalette orig with Some p => p | None => [] end)
             (firstn (S (tell orig)) (frames (file orig))) x y.
Proof. intros Hx Hy. unfold convert_RGBA. apply getpixel_raster; assumption. Qed.

Lemma size_convert_RGBA orig : size (convert_RGBA orig) = source_size orig.
Proof.
  unfold convert_RGBA. rewrite size_raster.
  destruct (source_size orig). reflexivity.
Qed.


(** An index that is not the transparent one is drawn. *)
Lemma drawn_index_opaque f x y i :
  index_at f x y = Some i -> transparency f <> Some i ->
  drawn_index f x y = Some i.
Proof.
  intros Hidx Htr. unfold drawn_index, opacity. rewrite Hidx.
  destruct (transparency f) as [t|]; [|reflexivity].
  destruct (Nat.eqb_spec t i); [congruence|reflexivity].
Qed.

(** The frame decoded last decides wherever it draws. *)
Lemma held_index_last loaded f x y :
  held_index (loaded ++ [f]) x y =
  match drawn_index f x y with
  | Some i => Some i
  | None => held_index loaded x y
  end.
Proof. unfold held_index. rewrite fold_left_app. reflexivity. Qed.

Lemma firstn_S_nth_error {A} (l : list A) k a :
  nth_error l k = Some a -> firstn (S k) l = firstn k l ++ [a].
Proof.
  revert k. induction l as [|b l IH]; intros k E.
  - destruct k; discriminate.
  - destruct k as [|k].
    + cbn in E. injection E as ->. reflexivity.
    + cbn [nth_error] in E. cbn [firstn]. rewrite (IH k E). reflexivity.
Qed.

(** What the source holds is opaque or blank, so blending it by its own
    alpha over a blank canvas gives it back. *)
Lemma blend_held_pixel pal loaded x y :
  let s := held_pixel pal loaded x y in
  blend_pixel (alpha s) blank s = s.
Proof.
  cbv zeta. unfold held_pixel.
  destruct (held_index loaded x y) as [i|]; [|reflexivity].
  destruct (colour pal i) as [[r g] b]. cbn [alpha].
  apply blend_pixel_opaque.
Qed.

(** By the time [read_frames] asks, the frame is loaded: no tile is left
    and the frame is not taken for partial. *)
Lemma is_partial_frame_positioned gif p k :
  is_partial_frame (positioned gif p k) = false.
Proof.
  unfold positioned. cbn [getpalette].
  destruct (truthy (frame_palette gif k)); reflexivity.
Qed.

Lemma getpalette_positioned gif p k :
  getpalette (positioned gif p k) = Some (palette_in_use gif p k).
Proof.
  unfold positioned, palette_in_use. cbn [getpalette].
  destruct (frame_palette gif k) as [[|c q]|]; reflexivity.
Qed.

(** A pixel of the canvas of frame [k]: what the source holds there once
    the frames up to [k] are decoded, in the palette in use. *)
Lemma getpixel_canvas gif p k prev x y :
  x < fst (screen gif) -> y < snd (screen gif) ->
  getpixel (render (positioned gif p k) prev) x y =
  held_pixel (palette_in_use gif p k) (firstn (S k) (frames gif)) x y.
Proof.
  intros Hx Hy.
  assert (Hsz : source_size (positioned gif p k) = screen gif)
    by apply source_size_positioned.
  unfold render. rewrite is_partial_frame_positioned.
  unfold paste_mask.
  assert (Hn : size (Image_new (source_size (positioned gif p k))) = screen gif).
  { rewrite size_Image_new. exact Hsz. }
  assert (Hc : size (convert_RGBA (positioned gif p k)) = screen gif).
  { rewrite size_convert_RGBA. exact Hsz. }
  unfold width, height. rewrite Hn, Hc.
  rewrite getpixel_raster by assumption.
  destruct (Nat.ltb_spec x (fst (screen gif))); [|lia].
  destruct (Nat.ltb_spec y (snd (screen gif))); [|lia].
  cbn [andb].
  rewrite getpixel_convert_RGBA by (rewrite Hsz; assumption).
  rewrite getpalette_positioned, file_positioned, tell_positioned.
  unfold Image_new. rewrite Hsz.
  destruct (screen gif) as [w h] eqn:Es. cbn [fst snd] in *.
  rewrite getpixel_raster by assumption.
  apply blend_held_pixel.
Qed.





(** Where the frame holds an opaque index, the canvas shows its colour in
    the installed palette. *)
Lemma render_opaque_inside gif p k f prev x y i :
  nth_error (frames gif) k = Some f ->
  index_at f x y = Some i ->
  transparency f <> Some i ->
  x < fst (screen gif) -> y < snd (screen gif) ->
  getpixel (render (positioned gif p k) prev) x y =
  let '(r, g, b) := colour (palette_in_use gif p k) i in RGBA r g b 255.
Proof.
  intros Hf Hidx Htr Hx Hy.
  rewrite getpixel_canvas by assumption.
  unfold held_pixel. rewrite (firstn_S_nth_error _ _ _ Hf), held_index_last.
  rewrite (drawn_index_opaque _ _ _ _ Hidx Htr). reflexivity.
Qed.


Lemma canvases_from_step gif p : forall count prev k i c c',
  nth_error (canvases_from gif p prev k count) i = Some c ->
  nth_error (canvases_from gif p prev k count) (S i) = Some c' ->
  c' = render (positioned gif p (k + S i)) c.
Proof.
  induction count as [|count IH]; intros prev k i c c' Hc Hc'.
  - destruct i; discriminate.
  - cbn [canvases_from] in Hc, Hc'. destruct i as [|i].
    + cbn [nth_error] in Hc. injection Hc as <-.
      cbn [nth_error] in Hc'. destruct count as [|count]; [discriminate|].
      cbn [canvases_from nth_error] in Hc'. injection Hc' as <-.
      rewrite Nat.add_1_r. reflexivity.
    + cbn [nth_error] in Hc, Hc'.
      rewrite (IH _ _ _ _ _ Hc Hc'). f_equal. f_equal. lia.
Qed.

Lemma length_canvases_from gif p : forall count prev k,
  length (canvases_from gif p prev k count) = count.
Proof.
  induction count as [|count IH]; intros prev k; cbn; [|rewrite IH]; reflexivity.
Qed.

(** ** The claims about read_frames *)

(** C3. A source of N >= 1 frames, opened at its first frame, yields exactly
    N canvases and then stops, every canvas of the screen size, whatever the
    consumer does to the canvases it received; left alone, the canvases are
    those of the frames in source order, each rendered on its predecessor. *)
Theorem read_frames_yields_every_frame gif consumer σ n :
  frames gif <> [] ->
  length (frames gif) < n ->
  (exists canvases,
     iterate n consumer 0 (read_frames (Image_open gif)) σ =
       (canvases, Finished) /\
     length canvases = length (frames gif) /\
     Forall (fun canvas => size canvas = screen gif) canvases) /\
  iterate n idle 0 (read_frames (Image_open gif)) σ = (decoded gif, Finished) /\
  length (decoded gif) = length (frames gif) /\
  (forall p i c c',
     frame_palette gif 0 = Some p ->
     nth_error (decoded gif) i = Some c ->
     nth_error (decoded gif) (S i) = Some c' ->
     c' = render (positioned gif p (S i)) c).
Proof.
  intros Hne Hn. split; [|split; [|split]].
  - apply iterate_read_frames; assumption.
  - apply iterate_idle_read_frames; assumption.
  - unfold decoded. destruct (frames gif) as [|f rest] eqn:Ef; [congruence|].
    destruct (frame_palette_first gif f rest Ef) as [p Hp]. rewrite Hp.
    apply length_canvases_from.
  - intros p i c c' Hp Hc Hc'. unfold decoded in Hc, Hc'. rewrite Hp in Hc, Hc'.
    apply (canvases_from_step _ _ _ _ _ _ _ _ Hc Hc').
Qed.

Lemma read_frames_yields_witness :
  iterate 3 idle 0 (read_frames (Image_open gif_left)) [] =
  ([solid 2 1 red_pixel; putpixel (solid 2 1 red_pixel) 0 0 green_pixel],
   Finished).
Proof.
  refine (eq_trans
    (proj1 (proj2 (read_frames_yields_every_frame gif_left idle [] 3 _ _))) _).
  - discriminate.
  - cbn. lia.
  - reflexivity.
Defined.

(** C9. When seeking past the current frame raises [EOFError], resuming the
    generator ends the iteration normally: the caller gets [StopIteration],
    not a fault, the store is untouched, and the generator stays closed.
    That is the case exactly at the last frame. *)
Theorem end_of_sequence_stops_the_generator orig palette prev cur σ :
  seek orig (tell orig + 1) = Raise EOFError ->
  next (Suspended orig palette prev cur) σ = (σ, Closed, StopIteration) /\
  next Closed σ = (σ, Closed, StopIteration) /\
  (forall n consumer k,
     iterate (S n) consumer k (Suspended orig palette prev cur) σ =
     ([], Finished)) /\
  length (frames (file orig)) <= tell orig + 1 /\
  (forall n e, seek orig n = Raise e -> e = EOFError).
Proof.
  intros Heof.
  assert (Hnext : next (Suspended orig palette prev cur) σ =
                  (σ, Closed, StopIteration)).
  { cbn [next]. rewrite Heof. reflexivity. }
  split; [exact Hnext|]. split; [reflexivity|]. split.
  - intros n consumer k. cbn [iterate]. rewrite Hnext. reflexivity.
  - unfold seek in Heof.
    destruct (nth_error (frames (file orig)) (tell orig + 1)) eqn:E;
      [discriminate|].
    apply nth_error_None in E. split; [exact E|].
    intros n e. apply seek_raises_only_eof.
Qed.

Lemma end_of_sequence_witness :
  next (Suspended (positioned gif_left rgb_palette 1) (Some rgb_palette) 0 2)
       [] = ([], Closed, StopIteration).
Proof.
  exact (proj1 (end_of_sequence_stops_the_generator
                  (positioned gif_left rgb_palette 1) (Some rgb_palette) 0 2 []
                  eq_refl)).
Defined.






(** * Further properties *)

(** ** split *)

Lemma ceil_div_covers a n : n <> 0 -> a <= n * ceil_div a n.
Proof.
  intros Hn. unfold ceil_div.
  pose proof (Nat.div_mod_eq a n) as Hdiv.
  pose proof (Nat.mod_upper_bound a n Hn) as Hmod.
  destruct (Nat.eqb_spec (a mod n) 0) as [E|E]; nia.
Qed.

Lemma firstn_skipn_glue {A} (l : list A) a b :
  firstn a l ++ firstn b (skipn a l) = firstn (a + b) l.
Proof.
  revert l. induction a as [|a IH]; intros l; [reflexivity|].
  destruct l as [|x l]; cbn [firstn skipn Nat.add app].
  - rewrite firstn_nil. reflexivity.
  - rewrite IH. reflexivity.
Qed.

Lemma concat_slices {A} (l : list A) step n :
  List.concat (map (fun i => slice l (i * step) ((i + 1) * step)) (seq 0 n)) =
  firstn (n * step) l.
Proof.
  induction n as [|n IH]; [reflexivity|].
  rewrite seq_S, map_app, concat_app, IH. cbn [map List.concat Nat.add].
  rewrite app_nil_r. unfold slice.
  replace ((n + 1) * step - n * step) with step by nia.
  rewrite firstn_skipn_glue. f_equal. nia.
Qed.

Lemma length_slice {A} (l : list A) i j : length (slice l i j) <= j - i.
Proof. unfold slice. apply firstn_le_length. Qed.

Lemma length_slice_inside {A} (l : list A) i j :
  j <= length l -> length (slice l i j) = j - i.
Proof.
  intros Hj. unfold slice. rewrite length_firstn, length_skipn. lia.
Qed.

(** X1. For a list of fewer than 2^53 elements and a chunk count below
    2^53, where the float quotient of line 7 has the ceiling of the exact
    one, [split(l, n)] for [n > 0] yields exactly [n] chunks, in order, whose
    concatenation is [l]; no chunk is longer than [ceil(len(l) / n)], and
    every chunk that ends within the list has exactly that length. *)
Theorem split_partitions {A} (l : list A) (n : nat) :
  length l < 2 ^ 53 ->
  n < 2 ^ 53 ->
  n <> 0 ->
  exists chunks,
    split l n = Returned chunks /\
    length chunks = n /\
    List.concat chunks = l /\
    Forall (fun chunk => length chunk <= ceil_div (length l) n) chunks /\
    (forall i, (i + 1) * ceil_div (length l) n <= length l ->
               length (nth i chunks []) = ceil_div (length l) n).
Proof.
  intros _ _ Hn.
  unfold split. destruct (Nat.eqb_spec n 0) as [|_]; [contradiction|].
  cbv zeta. set (step := ceil_div (length l) n).
  eexists. split; [reflexivity|]. split; [|split; [|split]].
  - rewrite length_map, length_seq. reflexivity.
  - rewrite concat_slices. apply firstn_all2.
    apply ceil_div_covers. exact Hn.
  - apply List.Forall_forall. intros chunk Hin. apply in_map_iff in Hin.
    destruct Hin as [i [<- _]].
    pose proof (length_slice l (i * step) ((i + 1) * step)). nia.
  - intros i Hi. destruct (Nat.lt_ge_cases i n) as [Hlt|Hge].
    + rewrite (nth_indep _ [] (slice l (0 * step) ((0 + 1) * step)))
        by (rewrite length_map, length_seq; exact Hlt).
      rewrite (map_nth (fun i => slice l (i * step) ((i + 1) * step))
                 (seq 0 n) 0 i).
      rewrite seq_nth by exact Hlt. cbn [Nat.add].
      rewrite length_slice_inside by exact Hi. nia.
    + pose proof (ceil_div_covers (length l) n Hn) as Hcov. fold step in Hcov.
      assert (Hstep : step = 0) by nia.
      rewrite nth_overflow by (rewrite length_map, length_seq; exact Hge).
      rewrite Hstep. reflexivity.
Qed.

Lemma split_partitions_witness :
  exists chunks,
    split [1; 2; 3; 4; 5] 2 = Returned chunks /\
    length chunks = 2 /\
    List.concat chunks = [1; 2; 3; 4; 5] /\
    Forall (fun chunk => length chunk <= 3) chunks /\
    (forall i, (i + 1) * 3 <= 5 -> length (nth i chunks []) = 3).
Proof.
  apply (split_partitions [1; 2; 3; 4; 5] 2).
  - apply (Nat.lt_le_trans _ (2 ^ 3)); [cbn; lia|].
    apply Nat.pow_le_mono_r; lia.
  - apply (Nat.lt_le_trans _ (2 ^ 3)); [cbn; lia|].
    apply Nat.pow_le_mono_r; lia.
  - discriminate.
Defined.

(** X2. [split(l, 0)] divides by zero, whatever the list; with more chunks
    asked for than the list has elements, the chunks past the elements are
    empty. *)
Theorem split_edge_cases {A} (l : list A) :
  split l 0 = ZeroDivisionError /\
  (forall n, length l < n ->
     split l n =
     Returned (map (fun x => [x]) l ++ repeat [] (n - length l))).
Proof.
  split; [reflexivity|]. intros n Hn. unfold split.
  destruct (Nat.eqb_spec n 0) as [|Hn0]; [lia|]. cbv zeta. f_equal.
  destruct l as [|x0 l0] eqn:El.
  - cbn [length map app]. rewrite Nat.sub_0_r.
    assert (Hstep : ceil_div 0 n = 0).
    { unfold ceil_div. rewrite Nat.Div0.div_0_l, Nat.Div0.mod_0_l. reflexivity. }
    rewrite Hstep. clear Hn Hn0 Hstep.
    assert (H : forall s, map (fun i : nat => @slice A [] (i * 0) ((i + 1) * 0))
                            (seq s n) = repeat [] n).
    { induction n as [|n IH]; intros s; [reflexivity|].
      cbn [seq map repeat]. rewrite IH. f_equal.
      unfold slice. rewrite skipn_nil. apply firstn_nil. }
    apply H.
  - rewrite <- El in *. assert (Hlen : 0 < length l) by (subst l; cbn; lia).
    assert (Hstep : ceil_div (length l) n = 1).
    { unfold ceil_div. rewrite Nat.div_small, Nat.mod_small by lia.
      destruct (Nat.eqb_spec (length l) 0); [lia|reflexivity]. }
    rewrite Hstep.
    replace n with (length l + (n - length l)) at 1 by lia.
    rewrite seq_app, map_app. f_equal.
    + clear. unfold slice.
      assert (H : forall (pre : list A),
                 map (fun i => firstn ((i + 1) * 1 - i * 1)
                                 (skipn (i * 1) (pre ++ l)))
                     (seq (length pre) (length l)) =
                 map (fun x => [x]) l).
      { induction l as [|x l IH]; intros pre; [reflexivity|].
        cbn [length seq map]. f_equal.
        - replace ((length pre + 1) * 1 - length pre * 1) with 1 by lia.
          rewrite Nat.mul_1_r, skipn_app, skipn_all, Nat.sub_diag.
          reflexivity.
        - specialize (IH (pre ++ [x])).
          rewrite length_app in IH. cbn [length] in IH.
          rewrite Nat.add_1_r, <- app_assoc in IH. exact IH. }
      apply (H []).
    + cbn [Nat.add].
      assert (H : forall s k, length l <= s ->
                 map (fun i => slice l (i * 1) ((i + 1) * 1)) (seq s k) =
                 repeat [] k).
      { intros s k. revert s. induction k as [|k IH]; intros s Hs;
          [reflexivity|].
        cbn [seq map repeat]. rewrite IH by lia. f_equal.
        unfold slice. rewrite skipn_all2 by lia. apply firstn_nil. }
      apply H. lia.
Qed.

(** ** The grey-level buckets *)

Lemma flat_map_all_nil {A B} (f : A -> list B) l :
  (forall x, List.In x l -> f x = []) -> flat_map f l = [].
Proof.
  induction l as [|a l IH]; intros H; [reflexivity|].
  cbn [flat_map]. rewrite (H a) by (left; reflexivity).
  apply IH. intros x Hx. apply H. right. exact Hx.
Qed.

Lemma glyphs_checked :
  forallb (fun color =>
             if List.list_eq_dec Ascii.ascii_dec (glyphs color)
                  [nth (color / 29) CHARS Ascii.Space]
             then true else false)
          (seq 0 256) = true.
Proof. vm_compute. reflexivity. Qed.

Lemma ranges_bounded :
  forallb (forallb (fun v => v <? 256)) RANGES = true.
Proof. vm_compute. reflexivity. Qed.

Lemma glyphs_in_range color :
  color < 256 -> glyphs color = [nth (color / 29) CHARS Ascii.Space].
Proof.
  intros Hc. pose proof glyphs_checked as H.
  rewrite forallb_forall in H. specialize (H color).
  destruct (List.list_eq_dec Ascii.ascii_dec (glyphs color)
              [nth (color / 29) CHARS Ascii.Space]) as [E|_].
  - exact E.
  - assert (false = true) by (apply H; apply in_seq; lia). discriminate.
Qed.

Lemma glyphs_out_of_range color : 256 <= color -> glyphs color = [].
Proof.
  intros Hc. unfold glyphs. apply flat_map_all_nil.
  intros [ix color_range] Hin.
  assert (Hr : List.In color_range RANGES).
  { unfold enumerate in Hin. apply in_combine_r in Hin. exact Hin. }
  assert (Hno : contains color_range color = false).
  { unfold contains. destruct (List.existsb (Nat.eqb color) color_range) eqn:E;
      [|reflexivity].
    apply existsb_exists in E. destruct E as [v [Hv Heq]].
    apply Nat.eqb_eq in Heq. subst v.
    pose proof ranges_bounded as B. rewrite forallb_forall in B.
    specialize (B _ Hr). rewrite forallb_forall in B.
    specialize (B _ Hv). apply Nat.ltb_lt in B. lia. }
  rewrite Hno. reflexivity.
Qed.

(** X3. The innermost loop of [ascii] appends exactly one character for a
    grey level in 0..255, the one at index [color // 29] of [CHARS], so a
    darker level never gets a later character than a lighter one; for any
    other level it appends nothing.  [RANGES] has one range per character. *)
Theorem every_grey_level_has_one_glyph :
  (forall color, color < 256 ->
     glyphs color = [nth (color / 29) CHARS Ascii.Space] /\
     color / 29 < length CHARS) /\
  (forall color color', color <= color' -> color / 29 <= color' / 29) /\
  (forall color, 256 <= color -> glyphs color = []) /\
  length RANGES = length CHARS /\
  List.concat RANGES = seq 0 256.
Proof.
  split; [|split; [|split; [|split]]].
  - intros color Hc. split; [apply glyphs_in_range; exact Hc|].
    change (length CHARS) with 9.
    apply Nat.Div0.div_lt_upper_bound. lia.
  - intros color color' Hle. apply Nat.Div0.div_le_mono. exact Hle.
  - apply glyphs_out_of_range.
  - reflexivity.
  - vm_compute. reflexivity.
Qed.

(** ** The text of the ASCII filter *)

Lemma flat_map_ext_in {A B} (f g : A -> list B) l :
  (forall x, List.In x l -> f x = g x) -> flat_map f l = flat_map g l.
Proof.
  induction l as [|a l IH]; intros H; [reflexivity|].
  cbn [flat_map]. rewrite (H a) by (left; reflexivity).
  rewrite IH; [reflexivity|]. intros x Hx. apply H. right. exact Hx.
Qed.

Lemma flat_map_singletons {A B} (f : A -> B) l :
  flat_map (fun x => [f x]) l = map f l.
Proof. induction l as [|a l IH]; [reflexivity|]. cbn. rewrite IH. reflexivity. Qed.

Lemma length_flat_map_uniform {A B} (f : A -> list B) k l :
  (forall x, length (f x) = k) -> length (flat_map f l) = length l * k.
Proof.
  intros H. induction l as [|a l IH]; [reflexivity|].
  cbn [flat_map length]. rewrite length_app, H, IH. lia.
Qed.

(** X4. When the grey levels read are in 0..255, the text has one line per
    row but the last, each line holding one character per column but the
    last, then a line feed: the last row and the last column of the resized
    image are never read. *)
Theorem ascii_text_shape getpixel new_x new_y :
  (forall x y, x < new_x - 1 -> y < new_y - 1 -> getpixel x y < 256) ->
  ascii_text getpixel new_x new_y =
    flat_map (fun y =>
                map (fun x => nth (getpixel x y / 29) CHARS Ascii.Space)
                    (seq 0 (new_x - 1))
                ++ [newline])
             (seq 0 (new_y - 1)) /\
  length (ascii_text getpixel new_x new_y) = (new_y - 1) * (new_x - 1 + 1).
Proof.
  intros Hgrey.
  assert (E : ascii_text getpixel new_x new_y =
              flat_map (fun y =>
                map (fun x => nth (getpixel x y / 29) CHARS Ascii.Space)
                    (seq 0 (new_x - 1)) ++ [newline]) (seq 0 (new_y - 1))).
  { unfold ascii_text. apply flat_map_ext_in. intros y Hy. apply in_seq in Hy.
    f_equal. rewrite <- flat_map_singletons. apply flat_map_ext_in.
    intros x Hx. apply in_seq in Hx. apply glyphs_in_range.
    apply Hgrey; lia. }
  split; [exact E|]. rewrite E.
  rewrite (length_flat_map_uniform _ (new_x - 1 + 1)).
  - rewrite length_seq. reflexivity.
  - intros y. rewrite length_app, length_map, length_seq. reflexivity.
Qed.

Lemma ascii_text_shape_witness :
  length (ascii_text gradient 4 3) = 8.
Proof.
  refine (proj2 (ascii_text_shape gradient 4 3 _)).
  intros x y _ _. unfold gradient. apply Nat.mod_upper_bound. discriminate.
Defined.

(** X5. The text depends on the pixels left of the last column and above
    the last row only: two images that agree there give the same text. *)
Theorem ascii_text_ignores_last_row_and_column getpixel getpixel' new_x new_y :
  (forall x y, x < new_x - 1 -> y < new_y - 1 -> getpixel x y = getpixel' x y) ->
  ascii_text getpixel new_x new_y = ascii_text getpixel' new_x new_y.
Proof.
  intros Hagree. unfold ascii_text. apply flat_map_ext_in.
  intros y Hy. apply in_seq in Hy. f_equal. apply flat_map_ext_in.
  intros x Hx. apply in_seq in Hx. rewrite Hagree by lia. reflexivity.
Qed.

Lemma ascii_text_ignores_witness :
  gradient 3 0 <> gradient_cut 3 0 /\
  ascii_text gradient 4 3 = ascii_text gradient_cut 4 3.
Proof.
  split; [discriminate|].
  apply (ascii_text_ignores_last_row_and_column gradient gradient_cut 4 3).
  intros x y Hx Hy. unfold gradient_cut.
  destruct (Nat.ltb_spec x 3); [|cbn in Hx; lia].
  destruct (Nat.ltb_spec y 2); [|cbn in Hy; lia].
  reflexivity.
Defined.

(** ** The block helpers *)

(** X6. [int_to_bin] is the 16-bit little-endian encoding: below 65536 it
    returns the two bytes [i % 256] and [i // 256], from which [i] is read
    back, so different numbers give different bytes; from 65536 on it
    raises, the high character having no latin-1 encoding. *)
Theorem int_to_bin_little_endian :
  (forall i, i < 256 * 256 ->
     exists lo hi,
       int_to_bin i = Ok [lo; hi] /\
       Byte.to_nat lo = i mod 256 /\ Byte.to_nat hi = i / 256 /\
       le16 [lo; hi] = i) /\
  (forall i bs, int_to_bin i = Ok bs -> i < 256 * 256 /\ le16 bs = i) /\
  (forall i j bs, int_to_bin i = Ok bs -> int_to_bin j = Ok bs -> i = j) /\
  (forall i, 256 * 256 <= i ->
     int_to_bin i = Raise UnicodeEncodeError \/
     int_to_bin i = Raise OverflowError).
Proof.
  assert (Hok : forall i, i < 256 * 256 ->
            exists lo hi,
              int_to_bin i = Ok [lo; hi] /\
              Byte.to_nat lo = i mod 256 /\ Byte.to_nat hi = i / 256 /\
              le16 [lo; hi] = i).
  { intros i Hi. unfold int_to_bin.
    assert (H1 : i mod 256 < 256) by (apply Nat.mod_upper_bound; lia).
    assert (H2 : i / 256 < 256) by (apply Nat.Div0.div_lt_upper_bound; lia).
    destruct (chr_latin1_ok _ H1) as [lo [E1 V1]].
    destruct (chr_latin1_ok _ H2) as [hi [E2 V2]].
    exists lo, hi. rewrite E1, E2. repeat split; try assumption.
    cbn [le16]. rewrite V1, V2. rewrite (Nat.div_mod_eq i 256) at 3. lia. }
  assert (Hinv : forall i bs, int_to_bin i = Ok bs ->
                              i < 256 * 256 /\ le16 bs = i).
  { intros i bs E. destruct (Nat.lt_ge_cases i (256 * 256)) as [Hlt|Hge].
    - destruct (Hok i Hlt) as [lo [hi [E' [_ [_ V]]]]].
      rewrite E' in E. injection E as <-. auto.
    - destruct (int_to_bin_raise i Hge) as [e E']. congruence. }
  split; [exact Hok|]. split; [exact Hinv|]. split.
  - intros i j bs Ei Ej.
    destruct (Hinv i bs Ei) as [_ Vi]. destruct (Hinv j bs Ej) as [_ Vj].
    congruence.
  - intros i Hi. unfold int_to_bin.
    assert (H1 : i mod 256 < 256) by (apply Nat.mod_upper_bound; lia).
    destruct (chr_latin1_ok _ H1) as [lo [E1 _]]. rewrite E1.
    assert (H2 : 256 <= i / 256) by (apply Nat.div_le_lower_bound; lia).
    destruct (chr_latin1 (i / 256)) as [b|e] eqn:E2; unfold chr_latin1 in E2;
      destruct (Byte.of_nat (i / 256)) as [b'|] eqn:E.
    + apply Byte.to_of_nat in E. pose proof (Byte.to_nat_bounded b'). lia.
    + destruct (N.of_nat (i / 256) <? 1114112)%N; discriminate.
    + discriminate.
    + destruct (N.of_nat (i / 256) <? 1114112)%N; injection E2 as <-; auto.
Qed.

(** X7. [application_ext(loops)] for a loop count below 65536 is 19 bytes:
    the fixed 16 bytes up to the sub-block, the loop count in little-endian,
    and the terminator; from 65536 on it raises. *)
Theorem application_ext_layout :
  (forall loops, loops < 256 * 256 ->
     exists count,
       application_ext loops = Ok (netscape_prefix ++ count ++ [x00]) /\
       le16 count = loops /\
       length (netscape_prefix ++ count ++ [x00]) = 19) /\
  (forall loops, 256 * 256 <= loops ->
     exists e, application_ext loops = Raise e).
Proof.
  split.
  - intros loops Hl. destruct (int_to_bin_ok loops Hl) as [lo [hi [E V]]].
    exists [lo; hi]. unfold application_ext. rewrite E.
    split; [reflexivity|]. split; [exact V|reflexivity].
  - intros loops Hl. destruct (int_to_bin_raise loops Hl) as [e E].
    exists e. unfold application_ext. rewrite E. reflexivity.
Qed.

Lemma logical_screen_descriptor_fits img packed_bit :
  width img < 256 * 256 -> height img < 256 * 256 ->
  exists w h,
    logical_screen_descriptor img packed_bit =
      Ok (w ++ h ++ packed_bit ++ [x00; x00]) /\
    le16 w = width img /\ le16 h = height img /\
    length w = 2 /\ length h = 2.
Proof.
  unfold width, height, logical_screen_descriptor.
  destruct (size img) as [img_x img_y]. cbn [fst snd]. intros Hx Hy.
  destruct (int_to_bin_ok img_x Hx) as [w_lo [w_hi [Ew Vw]]].
  destruct (int_to_bin_ok img_y Hy) as [h_lo [h_hi [Eh Vh]]].
  exists [w_lo; w_hi], [h_lo; h_hi]. rewrite Ew, Eh.
  split; [|split; [exact Vw|split; [exact Vh|split; reflexivity]]].
  cbn [List.concat app]. reflexivity.
Qed.

Lemma logical_screen_descriptor_overflows img packed_bit :
  256 * 256 <= width img \/ 256 * 256 <= height img ->
  exists e, logical_screen_descriptor img packed_bit = Raise e.
Proof.
  unfold width, height, logical_screen_descriptor.
  destruct (size img) as [img_x img_y]. cbn [fst snd]. intros [Hx|Hy].
  - destruct (int_to_bin_raise img_x Hx) as [e E]. rewrite E. eauto.
  - destruct (int_to_bin img_x) as [w|e]; [|eauto].
    destruct (int_to_bin_raise img_y Hy) as [e E]. rewrite E. eauto.
Qed.

(** X8. [logical_screen_descriptor] copies [packed_bit] as it is, whatever
    its length: for sides below 65536 the block is the width and the height
    in little-endian, [packed_bit], and two zero bytes, 6 bytes more than
    [packed_bit]; with a side from 65536 on it raises. *)
Theorem logical_screen_descriptor_layout img packed_bit :
  (width img < 256 * 256 -> height img < 256 * 256 ->
   exists w h,
     logical_screen_descriptor img packed_bit =
       Ok (w ++ h ++ packed_bit ++ [x00; x00]) /\
     le16 w = width img /\ le16 h = height img /\
     length (w ++ h ++ packed_bit ++ [x00; x00]) = 6 + length packed_bit) /\
  (256 * 256 <= width img \/ 256 * 256 <= height img ->
   exists e, logical_screen_descriptor img packed_bit = Raise e).
Proof.
  split; [|apply logical_screen_descriptor_overflows].
  intros Hx Hy.
  destruct (logical_screen_descriptor_fits img packed_bit Hx Hy)
    as [w [h [E [Vw [Vh [Lw Lh]]]]]].
  exists w, h. repeat split; try assumption.
  rewrite !length_app, Lw, Lh. cbn [length]. lia.
Qed.

(** ** More on write_frames *)

(** X9. When the codec refuses the header of the first canvas, nothing is
    written at all, neither signature nor trailer: the header is asked for
    before the first write. *)
Theorem header_failure_writes_nothing getheader getdata first rest h e :
  getheader first = Raise e ->
  write_frames getheader getdata (first :: rest) h = (h, Raise e).
Proof.
  intros Hh. unfold write_frames. cbn [for_frames]. unfold bind.
  rewrite loop_body_none. unfold first_frame, bind, call. rewrite Hh.
  reflexivity.
Qed.

Lemma header_failure_witness :
  write_frames refusing_getheader sample_getdata [canvas_red; canvas_dot] [] =
  ([], Raise (CodecError 2)).
Proof.
  exact (header_failure_writes_nothing refusing_getheader sample_getdata
           canvas_red [canvas_dot] [] (CodecError 2) eq_refl).
Defined.

(** X10. A codec header of fewer than four pieces makes the encode raise
    [IndexError] part-way through the preamble: after the signature when
    [header[1]] is missing, after the screen descriptor when only
    [header[3]] is; no colour table, extension, frame or trailer follows. *)
Theorem short_header_raises_index_error getheader getdata first rest h
    header used :
  getheader first = Ok (header, used) ->
  length header < 4 ->
  width first < 256 * 256 -> height first < 256 * 256 ->
  exists written,
    write_frames getheader getdata (first :: rest) h =
      (h ++ header_block :: written, Raise IndexError) /\
    length written = (if length header <=? 1 then 0 else 1).
Proof.
  intros Hh Hlen Hw Hht.
  assert (H3 : nth_error header 3 = None) by (apply nth_error_None; lia).
  unfold write_frames. cbn [for_frames]. unfold bind.
  rewrite loop_body_none. unfold first_frame, bind, call, write, getitem.
  rewrite Hh. cbn [fst].
  destruct (nth_error header 1) as [packed_bit|] eqn:H1.
  - destruct (logical_screen_descriptor_fits first packed_bit Hw Hht)
      as [w [ht [E _]]].
    rewrite E, H3. eexists. split.
    + rewrite <- app_assoc. reflexivity.
    + assert (nth_error header 1 <> None) by congruence.
      apply nth_error_Some in H.
      destruct (Nat.leb_spec (length header) 1); [lia|reflexivity].
  - apply nth_error_None in H1. exists []. split; [reflexivity|].
    destruct (Nat.leb_spec (length header) 1); [reflexivity|lia].
Qed.

Lemma short_header_witness :
  exists written,
    write_frames short_getheader sample_getdata [canvas_red] [] =
      ([] ++ header_block :: written, Raise IndexError) /\
    length written = 1.
Proof.
  refine (short_header_raises_index_error short_getheader sample_getdata
            canvas_red [] [] _ _ eq_refl _ _ _).
  - cbn. lia.
  - change (2 < 256 * 256). lia.
  - change (2 < 256 * 256). lia.
Defined.

(** X11. A first canvas with a side of 65536 or more cannot be described in
    two bytes: the encode raises when it builds the screen descriptor, and
    the handle is left with the signature alone. *)
Theorem oversized_side_raises_after_signature getheader getdata img rest h
    header used packed_bit :
  getheader img = Ok (header, used) ->
  nth_error header 1 = Some packed_bit ->
  256 * 256 <= width img \/ 256 * 256 <= height img ->
  exists e,
    write_frames getheader getdata (img :: rest) h =
    (h ++ [header_block], Raise e).
Proof.
  intros Hh H1 Hside.
  destruct (logical_screen_descriptor_overflows img packed_bit Hside) as [e Hl].
  exists e. unfold write_frames. cbn [for_frames]. unfold bind.
  rewrite loop_body_none. unfold first_frame, bind, call, write, getitem.
  rewrite Hh. cbn [fst]. rewrite H1, Hl. reflexivity.
Qed.

Lemma oversized_side_witness :
  exists e,
    write_frames sample_getheader sample_getdata [canvas_huge] [] =
    ([] ++ [header_block], Raise e).
Proof.
  refine (oversized_side_raises_after_signature sample_getheader sample_getdata
            canvas_huge [] [] _ _ _ eq_refl eq_refl _).
  left. exact (Nat.le_refl (256 * 256)).
Defined.

Lemma raster_agrees w h f g :
  (forall x y, x < w -> y < h -> f x y = g x y) -> raster w h f = raster w h g.
Proof.
  intros E. unfold raster. f_equal.
  apply map_ext_in. intros y Hy. apply in_seq in Hy.
  apply map_ext_in. intros x Hx. apply in_seq in Hx.
  apply E; lia.
Qed.

(** Pixel-identical baselines give the same difference image. *)
Lemma subtract_modulo_same_baseline img a a' :
  same_pixels a a' -> subtract_modulo img a' = subtract_modulo img a.
Proof.
  intros [Hsize Hpix]. unfold subtract_modulo, width, height in *.
  rewrite <- Hsize. apply raster_agrees. intros x y Hx Hy.
  rewrite Hpix by lia. reflexivity.
Qed.

Lemma delta_frame_same_baseline getdata img a a' h :
  same_pixels a a' -> delta_frame getdata img a' h = delta_frame getdata img a h.
Proof.
  intros Hsame. unfold delta_frame.
  rewrite (subtract_modulo_same_baseline img a a' Hsame). reflexivity.
Qed.

(** What follows a canvas does not tell it from a pixel-identical one. *)
Lemma rest_after_same_baseline getheader getdata a a' rest h :
  same_pixels a a' ->
  write_frames_after getheader getdata (Some a') rest h =
  write_frames_after getheader getdata (Some a) rest h.
Proof.
  intros Hsame. unfold write_frames_after. destruct rest as [|img rest].
  - reflexivity.
  - cbn [for_frames]. unfold bind. rewrite !loop_body_some.
    rewrite (delta_frame_same_baseline getdata img a a' h Hsame). reflexivity.
Qed.

Lemma write_frames_from_prefix getheader getdata l1 l2 h :
  write_frames getheader getdata (l1 ++ l2) h =
  match for_frames getheader getdata None l1 h with
  | (h1, Ok prev) => write_frames_after getheader getdata prev l2 h1
  | (h1, Raise e) => (h1, Raise e)
  end.
Proof.
  unfold write_frames, write_frames_after, bind. rewrite for_frames_app.
  unfold bind.
  destruct (for_frames getheader getdata None l1 h) as [h1 [prev|e]];
    reflexivity.
Qed.

(** X12. A canvas that is pixel-identical to the one before it is dropped
    wherever it stands in the sequence, and leaves no trace: the output is
    that of the sequence without it, byte for byte and error for error,
    whatever the codec. *)
Theorem duplicate_canvas_leaves_no_trace getheader getdata before a a' rest h :
  same_pixels a a' ->
  write_frames getheader getdata (before ++ a :: a' :: rest) h =
  write_frames getheader getdata (before ++ a :: rest) h.
Proof.
  intros Hsame.
  replace (before ++ a :: a' :: rest) with ((before ++ [a]) ++ a' :: rest)
    by (rewrite <- app_assoc; reflexivity).
  replace (before ++ a :: rest) with ((before ++ [a]) ++ rest)
    by (rewrite <- app_assoc; reflexivity).
  rewrite !write_frames_from_prefix.
  destruct (for_frames getheader getdata None (before ++ [a]) h)
    as [h1 [prev|e]] eqn:E; [|reflexivity].
  apply for_frames_retains in E. subst prev. unfold copy.
  unfold write_frames_after at 1. cbn [for_frames]. unfold bind.
  rewrite loop_body_some, delta_frame_run.
  rewrite (getbbox_same_pixels a a' Hsame).
  apply (rest_after_same_baseline getheader getdata a a' rest h1 Hsame).
Qed.

Lemma duplicate_canvas_witness :
  write_frames sample_getheader sample_getdata
    [canvas_red; canvas_dot; canvas_dot; canvas_red] [] =
  write_frames sample_getheader sample_getdata
    [canvas_red; canvas_dot; canvas_red] [].
Proof.
  apply (duplicate_canvas_leaves_no_trace sample_getheader sample_getdata
           [canvas_red] canvas_dot canvas_dot [canvas_red] []).
  split; [reflexivity|intros; reflexivity].
Defined.

(** X13. The encoder works in one forward pass: what it has written for a
    sequence, up to the trailer, is a prefix of what it writes for any
    longer sequence, whatever canvases follow and whether or not they can
    be encoded. *)
Theorem output_of_a_prefix_is_kept getheader getdata l1 l2 h out :
  write_frames getheader getdata l1 h = (out, Ok tt) ->
  exists body more,
    out = body ++ [trailer] /\
    fst (write_frames getheader getdata (l1 ++ l2) h) = body ++ more.
Proof.
  intros Hrun. rewrite write_frames_from_prefix.
  unfold write_frames, bind in Hrun.
  destruct (for_frames getheader getdata None l1 h) as [h1 [prev|e]];
    [|discriminate].
  unfold write in Hrun. injection Hrun as <-.
  exists h1. unfold write_frames_after.
  destruct (appends_bind (for_frames getheader getdata prev l2)
              (fun _ => write trailer)
              (appends_for_frames getheader getdata l2 prev)
              (fun _ => appends_write trailer) h1) as [more Hmore].
  exists more. split; [reflexivity|exact Hmore].
Qed.

Lemma output_of_a_prefix_witness :
  exists body more,
    sample_preamble ++ sample_blocks canvas_red (0, 0) ++ [trailer] =
      body ++ [trailer] /\
    fst (write_frames sample_getheader narrow_getdata
           ([canvas_red] ++ [canvas_dot; canvas_small]) []) = body ++ more.
Proof.
  exact (output_of_a_prefix_is_kept sample_getheader narrow_getdata
           [canvas_red] [canvas_dot; canvas_small] [] _ eq_refl).
Defined.

(** ** More on read_frames *)

Lemma loop_iteration_allocates orig palette prev σ :
  exists fresh,
    fst (fst (loop_iteration orig palette prev σ)) = σ ++ fresh /\
    length fresh <= 1.
Proof.
  unfold loop_iteration. cbv zeta.
  destruct (if truthy (getpalette (load orig)) then Ok (load orig)
            else putpalette (load orig) palette) as [orig'|e].
  - unfold alloc.
    destruct (is_partial_frame orig'); rewrite ?update_alloc;
      eexists; (split; [reflexivity|cbn; lia]).
  - exists []. cbn. rewrite app_nil_r. split; [reflexivity|lia].
Qed.

(** X14. A step of the generator never writes to a canvas that exists: the
    store of canvases after [next] is the store before it followed by at
    most two new canvases, so every canvas yielded earlier reads as it did.
    The source object [orig] is not one of them: it is the object the
    generator does change, by loading it, by [putpalette] and by [seek]. *)
Theorem next_only_allocates g σ :
  exists fresh,
    fst (fst (next g σ)) = σ ++ fresh /\
    length fresh <= 2 /\
    (forall r, r < length σ -> deref (fst (fst (next g σ))) r = deref σ r).
Proof.
  assert (H : exists fresh,
             fst (fst (next g σ)) = σ ++ fresh /\ length fresh <= 2).
  { destruct g as [orig|orig palette prev cur|]; cbn [next].
    - cbv zeta. unfold alloc.
      destruct (loop_iteration_allocates (load orig) (getpalette (load orig))
                  (length σ) (σ ++ [convert_RGBA (load orig)]))
        as [fresh [E L]].
      exists (convert_RGBA (load orig) :: fresh). rewrite E, <- app_assoc.
      split; [reflexivity|cbn [length]; lia].
    - destruct (seek orig (tell orig + 1)) as [orig'|e].
      + destruct (loop_iteration_allocates orig' palette cur σ)
          as [fresh [E L]].
        exists fresh. split; [exact E|lia].
      + exists []. destruct e; cbn; rewrite app_nil_r; (split; [reflexivity|lia]).
    - exists []. cbn. rewrite app_nil_r. split; [reflexivity|lia]. }
  destruct H as [fresh [E L]]. exists fresh.
  split; [exact E|]. split; [exact L|].
  intros r Hr. rewrite E. unfold deref. rewrite lookup_app_l by exact Hr.
  reflexivity.
Qed.


Lemma canvases_from_nth gif p : forall count prev k j c,
  size prev = screen gif ->
  nth_error (canvases_from gif p prev k count) j = Some c ->
  exists prev', size prev' = screen gif /\
                c = render (positioned gif p (k + j)) prev'.
Proof.
  induction count as [|count IH]; intros prev k j c Hsize Hc.
  - destruct j; discriminate.
  - cbn [canvases_from] in Hc. destruct j as [|j].
    + cbn [nth_error] in Hc. injection Hc as <-.
      exists prev. rewrite Nat.add_0_r. auto.
    + cbn [nth_error] in Hc. apply IH in Hc.
      * destruct Hc as [prev' [Hs Hc]]. exists prev'.
        replace (k + S j) with (S k + j) by lia. auto.
      * rewrite size_render. apply source_size_positioned.
Qed.

(** X17. Every opaque pixel of a frame shows in the canvas of that frame:
    where frame [k] holds a palette index that is not its transparent one,
    canvas [k] has the colour of that index in the palette in use for the
    frame, fully opaque, whatever the canvases before. *)
Theorem opaque_pixels_show_in_the_canvas gif p k f c x y i :
  frame_palette gif 0 = Some p ->
  nth_error (frames gif) k = Some f ->
  nth_error (decoded gif) k = Some c ->
  x < fst (screen gif) -> y < snd (screen gif) ->
  index_at f x y = Some i ->
  transparency f <> Some i ->
  getpixel c x y =
  let '(r, g, b) := colour (palette_in_use gif p k) i in RGBA r g b 255.
Proof.
  intros Hp Hf Hc Hx Hy Hidx Htr.
  unfold decoded in Hc. rewrite Hp in Hc.
  apply canvases_from_nth in Hc.
  2: { rewrite size_convert_RGBA. reflexivity. }
  destruct Hc as [prev [Hsize ->]]. cbn [Nat.add].
  apply (render_opaque_inside gif p k f); assumption.
Qed.

Lemma opaque_pixels_witness :
  getpixel (putpixel (solid 2 1 red_pixel) 0 0 green_pixel) 0 0 = green_pixel.
Proof.
  refine (opaque_pixels_show_in_the_canvas gif_left rgb_palette 1
            (mkFrame (Some (0, 0, 1, 1)) None None [[1]])
            (putpixel (solid 2 1 red_pixel) 0 0 green_pixel) 0 0 1
            eq_refl eq_refl eq_refl _ _ eq_refl _).
  - cbn. lia.
  - cbn. lia.
  - discriminate.
Defined.

Lemma firstn_canvases_from gif p : forall count n prev k,
  n <= count ->
  firstn n (canvases_from gif p prev k count) = canvases_from gif p prev k n.
Proof.
  induction count as [|count IH]; intros n prev k Hn.
  - destruct n; [reflexivity|lia].
  - destruct n as [|n]; [reflexivity|].
    cbn [canvases_from firstn]. rewrite IH by lia. reflexivity.
Qed.

Lemma iterate_idle_pending gif p : forall n orig prev cur σ k,
  file orig = gif ->
  cur < length σ ->
  tell orig + 1 + n <= length (frames gif) ->
  iterate n idle k (Suspended orig (Some p) prev cur) σ =
  (canvases_from gif p (deref σ cur) (tell orig + 1) n, Pending).
Proof.
  induction n as [|n IH]; intros orig prev cur σ k Hfile Hcur Hlen;
    [reflexivity|].
  cbn [iterate canvases_from].
  destruct (nth_error (frames (file orig)) (tell orig + 1)) as [f|] eqn:E.
  2: { apply nth_error_None in E. rewrite Hfile in E. lia. }
  rewrite (next_suspended_more _ _ _ _ _ _ E). rewrite Hfile.
  rewrite deref_alloc, deref_alloc_old by exact Hcur.
  unfold idle at 1. rewrite run_script_idle. rewrite IH.
  - rewrite deref_alloc, tell_positioned.
    replace (tell orig + 1 + 1) with (S (tell orig + 1)) by lia.
    reflexivity.
  - apply file_positioned.
  - rewrite length_app. cbn [length]. lia.
  - rewrite tell_positioned. lia.
Qed.

(** X18. The generator is lazy: a consumer that stops after [n] canvases,
    [n] no more than the number of frames, has received the canvases of the
    first [n] frames, and the iteration is left pending, not finished. *)
Theorem stopping_early_gives_the_first_canvases gif σ n :
  n <= length (frames gif) ->
  iterate n idle 0 (read_frames (Image_open gif)) σ =
  (firstn n (decoded gif), Pending).
Proof.
  intros Hn. destruct n as [|n]; [reflexivity|].
  destruct (frames gif) as [|f rest] eqn:Ef; [cbn in Hn; lia|].
  destruct (frame_palette_first gif f rest Ef) as [p Hp].
  cbn [iterate]. rewrite (next_created gif p σ Hp).
  unfold idle at 1. rewrite run_script_idle, deref_alloc_second.
  rewrite (iterate_idle_pending gif p n).
  - rewrite deref_alloc_second, tell_positioned. unfold decoded.
    rewrite Hp, Ef. cbn [length canvases_from firstn].
    rewrite firstn_canvases_from by (cbn [length] in Hn; lia).
    reflexivity.
  - apply file_positioned.
  - rewrite length_app. cbn [length]. lia.
  - rewrite tell_positioned, Ef. cbn [length] in *. lia.
Qed.

Lemma stopping_early_witness :
  iterate 1 idle 0 (read_frames (Image_open gif_three)) [] =
  ([solid 2 1 red_pixel], Pending).
Proof.
  refine (eq_trans (stopping_early_gives_the_first_canvases gif_three [] 1 _) _).
  - cbn. lia.
  - reflexivity.
Defined.
